(** * GEDF non-preemptive scheduler of the threaded reactor-c runtime

    A shallow embedding of [core/threaded/scheduler_GEDF_NP.c].

    The C globals of the scheduler become the fields of one record, [sched];
    every C function becomes a function of the state monad [M] over that
    record.  Pointers are locations into two finite maps: the user's
    reactions and the live priority queues.  Calls that matter to the outside
    (mutex operations, queue operations, semaphore operations, the two
    external hooks) are also appended to a ghost [trace], most recent first. *)

From stdpp Require Import base numbers list option gmap.
From Stdlib Require Import ZArith Lia.

Local Open Scope Z_scope.

(** ** Machine integers *)

(** [size_t] is taken to be 64 bits wide (LP64). *)
Definition SIZE_WIDTH : Z := 64.
Definition to_size_t (z : Z) : Z := z mod 2 ^ SIZE_WIDTH.

(** Conversion of a [size_t] to a 32-bit [int] (the return type of
    [_lf_sched_distribute_ready_reactions_locked]). *)
Definition to_int (z : Z) : Z :=
  let m := z mod 2 ^ 32 in if m <? 2 ^ 31 then m else m - 2 ^ 32.

Definition MIN (a b : Z) : Z := if a <? b then a else b.

(** ** Data model *)

Abbreviation loc := nat (only parsing).

(** [reaction_t*] and [pqueue_t*]: [None] is the NULL pointer. *)
Abbreviation ptr := (option nat) (only parsing).

Inductive reaction_status := inactive | queued | running.

#[global] Instance reaction_status_eq_dec : EqDecision reaction_status.
Proof. solve_decision. Defined.

(** The two fields of [reaction_t] the scheduler reads or writes. *)
Record reaction := mk_reaction { index : Z; status : reaction_status }.

(** [tag_t]: logical time and microstep. *)
Record tag := mk_tag { time : Z; microstep : Z }.

Inductive mutex_id :=
| global_mutex                    (* [mutex] *)
| exec_q_mutex.                   (* [_lf_sched_executing_q_mutex] *)

#[global] Instance mutex_id_eq_dec : EqDecision mutex_id.
Proof. solve_decision. Defined.

Inductive event :=
| EvMutexInit (m : mutex_id)
| EvLock (m : mutex_id)
| EvUnlock (m : mutex_id)
| EvInsert (q : loc) (r : loc)    (* pqueue_insert(q, r) *)
| EvPop (q : loc) (r : ptr)       (* pqueue_pop(q) returned r *)
| EvPqueueFree (q : loc)
| EvSemRelease (n : Z)
| EvSemAcquire
| EvSemDestroy
| EvTagComplete (t : tag)         (* logical_tag_complete(t) *)
| EvNext.                         (* _lf_next_locked() *)

(** Modelled from the spec: the priority queue of [pqueue.c], which is not
    part of the sources at hand.  The spec uses it as a black box with
    [insert], [pop_min] and [size], ordered by [index] ascending.  An entry
    pairs the payload with the priority that the queue's [getpri] callback
    ([get_reaction_index]) reported when the payload was inserted; the
    scheduler never writes [index]. *)
Abbreviation pqueue := (list (Z * nat)) (only parsing).

Definition pqueue_insert (e : Z * loc) (q : pqueue) : pqueue := q ++ [e].

Definition pqueue_size (q : pqueue) : Z := Z.of_nat (length q).

Fixpoint pqueue_peek (q : pqueue) : option (Z * loc) :=
  match q with
  | [] => None
  | e :: q' =>
      match pqueue_peek q' with
      | None => Some e
      | Some m => if e.1 <=? m.1 then Some e else Some m
      end
  end.

Fixpoint pqueue_remove (e : Z * loc) (q : pqueue) : pqueue :=
  match q with
  | [] => []
  | x :: q' => if decide (x = e) then q' else x :: pqueue_remove e q'
  end.

Definition pqueue_pop (q : pqueue) : option (Z * loc) * pqueue :=
  match pqueue_peek q with
  | None => (None, q)
  | Some e => (Some e, pqueue_remove e q)
  end.

(** The scheduler's globals, the two external tags, the objects its pointers
    point to, and the ghost trace. *)
Record sched := mk_sched {
  reactions : gmap loc reaction;
  pqueues : gmap loc pqueue;
  current_tag : tag;
  stop_tag : tag;
  _lf_sched_semaphore : option Z;
  _lf_sched_should_stop : bool;
  vector_of_reaction_qs : list ptr;
  executing_q : ptr;
  _lf_sched_number_of_workers : Z;
  _lf_sched_number_of_idle_workers : Z;
  _lf_logical_tag_completed : bool;
  _lf_sched_next_reaction_level : Z;
  trace : list event
}.

Definition set_reactions (f : gmap loc reaction → gmap loc reaction) (s : sched) : sched :=
  mk_sched (f (reactions s)) (pqueues s) (current_tag s) (stop_tag s)
    (_lf_sched_semaphore s) (_lf_sched_should_stop s) (vector_of_reaction_qs s)
    (executing_q s) (_lf_sched_number_of_workers s)
    (_lf_sched_number_of_idle_workers s) (_lf_logical_tag_completed s)
    (_lf_sched_next_reaction_level s) (trace s).

Definition set_pqueues (f : gmap loc pqueue → gmap loc pqueue) (s : sched) : sched :=
  mk_sched (reactions s) (f (pqueues s)) (current_tag s) (stop_tag s)
    (_lf_sched_semaphore s) (_lf_sched_should_stop s) (vector_of_reaction_qs s)
    (executing_q s) (_lf_sched_number_of_workers s)
    (_lf_sched_number_of_idle_workers s) (_lf_logical_tag_completed s)
    (_lf_sched_next_reaction_level s) (trace s).

Definition set_current_tag (t : tag) (s : sched) : sched :=
  mk_sched (reactions s) (pqueues s) t (stop_tag s)
    (_lf_sched_semaphore s) (_lf_sched_should_stop s) (vector_of_reaction_qs s)
    (executing_q s) (_lf_sched_number_of_workers s)
    (_lf_sched_number_of_idle_workers s) (_lf_logical_tag_completed s)
    (_lf_sched_next_reaction_level s) (trace s).

Definition set_semaphore (c : option Z) (s : sched) : sched :=
  mk_sched (reactions s) (pqueues s) (current_tag s) (stop_tag s)
    c (_lf_sched_should_stop s) (vector_of_reaction_qs s)
    (executing_q s) (_lf_sched_number_of_workers s)
    (_lf_sched_number_of_idle_workers s) (_lf_logical_tag_completed s)
    (_lf_sched_next_reaction_level s) (trace s).

Definition set_should_stop (b : bool) (s : sched) : sched :=
  mk_sched (reactions s) (pqueues s) (current_tag s) (stop_tag s)
    (_lf_sched_semaphore s) b (vector_of_reaction_qs s)
    (executing_q s) (_lf_sched_number_of_workers s)
    (_lf_sched_number_of_idle_workers s) (_lf_logical_tag_completed s)
    (_lf_sched_next_reaction_level s) (trace s).

Definition set_vector (f : list ptr → list ptr) (s : sched) : sched :=
  mk_sched (reactions s) (pqueues s) (current_tag s) (stop_tag s)
    (_lf_sched_semaphore s) (_lf_sched_should_stop s) (f (vector_of_reaction_qs s))
    (executing_q s) (_lf_sched_number_of_workers s)
    (_lf_sched_number_of_idle_workers s) (_lf_logical_tag_completed s)
    (_lf_sched_next_reaction_level s) (trace s).

Definition set_executing_q (q : ptr) (s : sched) : sched :=
  mk_sched (reactions s) (pqueues s) (current_tag s) (stop_tag s)
    (_lf_sched_semaphore s) (_lf_sched_should_stop s) (vector_of_reaction_qs s)
    q (_lf_sched_number_of_workers s)
    (_lf_sched_number_of_idle_workers s) (_lf_logical_tag_completed s)
    (_lf_sched_next_reaction_level s) (trace s).

Definition set_number_of_workers (n : Z) (s : sched) : sched :=
  mk_sched (reactions s) (pqueues s) (current_tag s) (stop_tag s)
    (_lf_sched_semaphore s) (_lf_sched_should_stop s) (vector_of_reaction_qs s)
    (executing_q s) n
    (_lf_sched_number_of_idle_workers s) (_lf_logical_tag_completed s)
    (_lf_sched_next_reaction_level s) (trace s).

Definition set_idle_workers (n : Z) (s : sched) : sched :=
  mk_sched (reactions s) (pqueues s) (current_tag s) (stop_tag s)
    (_lf_sched_semaphore s) (_lf_sched_should_stop s) (vector_of_reaction_qs s)
    (executing_q s) (_lf_sched_number_of_workers s)
    n (_lf_logical_tag_completed s)
    (_lf_sched_next_reaction_level s) (trace s).

Definition set_tag_completed (b : bool) (s : sched) : sched :=
  mk_sched (reactions s) (pqueues s) (current_tag s) (stop_tag s)
    (_lf_sched_semaphore s) (_lf_sched_should_stop s) (vector_of_reaction_qs s)
    (executing_q s) (_lf_sched_number_of_workers s)
    (_lf_sched_number_of_idle_workers s) b
    (_lf_sched_next_reaction_level s) (trace s).

Definition set_next_level (n : Z) (s : sched) : sched :=
  mk_sched (reactions s) (pqueues s) (current_tag s) (stop_tag s)
    (_lf_sched_semaphore s) (_lf_sched_should_stop s) (vector_of_reaction_qs s)
    (executing_q s) (_lf_sched_number_of_workers s)
    (_lf_sched_number_of_idle_workers s) (_lf_logical_tag_completed s)
    n (trace s).

Definition record (e : event) (s : sched) : sched :=
  mk_sched (reactions s) (pqueues s) (current_tag s) (stop_tag s)
    (_lf_sched_semaphore s) (_lf_sched_should_stop s) (vector_of_reaction_qs s)
    (executing_q s) (_lf_sched_number_of_workers s)
    (_lf_sched_number_of_idle_workers s) (_lf_logical_tag_completed s)
    (_lf_sched_next_reaction_level s) (e :: trace s).

(** ** The monad of scheduler code *)

Inductive diagnostic :=
| UnexpectedReactionStatus (observed expected : reaction_status)
| CouldNotDestroySemaphore.

(** How a call ends: it returns, the process exits through
    [error_print_and_exit], the calling thread parks on the semaphore, the
    call has no defined behaviour in C (NULL or dangling dereference, index
    out of the array), or the loop budget of the model is used up. *)
Inductive result (A : Type) : Type :=
| Ret (a : A) (s : sched)
| Exit (d : diagnostic) (s : sched)
| Blocked (s : sched)
| Undef
| OutOfFuel.

Arguments Ret {A} a s.
Arguments Exit {A} d s.
Arguments Blocked {A} s.
Arguments Undef {A}.
Arguments OutOfFuel {A}.

Definition M (A : Type) : Type := sched → result A.

Definition ret {A} (a : A) : M A := λ s, Ret a s.

Definition bind {A B} (m : M A) (k : A → M B) : M B :=
  λ s, match m s with
       | Ret a s' => k a s'
       | Exit d s' => Exit d s'
       | Blocked s' => Blocked s'
       | Undef => Undef
       | OutOfFuel => OutOfFuel
       end.

Notation "'do' x <- c1 ; c2" := (bind c1 (λ x, c2))
  (at level 10, x name, c1 at level 100, c2 at level 200).
Notation "'run' c1 ; c2" := (bind c1 (λ _, c2))
  (at level 10, c1 at level 100, c2 at level 200).

Definition get {A} (f : sched → A) : M A := λ s, Ret (f s) s.
Definition modify (f : sched → sched) : M unit := λ s, Ret tt (f s).
Definition emit (e : event) : M unit := modify (record e).
Definition undef {A} : M A := λ _, Undef.
Definition error_print_and_exit {A} (d : diagnostic) : M A := λ s, Exit d s.
Definition out_of_fuel {A} : M A := λ _, OutOfFuel.

(** Dereference of a pointer into a finite map of live objects. *)
Definition deref {A} (m : gmap loc A) (p : ptr) : M A :=
  match p with
  | None => undef
  | Some l => match m !! l with Some a => ret a | None => undef end
  end.

(** ** What the scheduler is compiled against *)

(** Macros, build flags and external collaborators that
    [scheduler_GEDF_NP.c] uses but does not define. *)
Class Runtime := {
  (** The [LEVEL(index)] macro of [reactor.h]. *)
  LEVEL : Z → Z;
  (** The [int] constant [MAX_REACTION_LEVEL]. *)
  MAX_REACTION_LEVEL : nat;
  (** Whether the build defines [FEDERATED]. *)
  FEDERATED : bool;
  (** [compare_tags] of [tag.c]: negative, zero or positive. *)
  compare_tags : tag → tag → Z;
  (** The event horizon behind [_lf_next_locked]: the tag it advances to and
      the reactions whose triggers fire there. *)
  next_events : sched → tag * list ptr;
  (** What the other threads do to the shared state while the caller waits
      for a permit of the semaphore. *)
  while_parked : sched → sched
}.

Section Scheduler.

Context `{RT : Runtime}.

(** *** Platform primitives *)

(** Modelled from the spec: the platform mutex.  Only the calls are recorded. *)
Definition lf_mutex_init (m : mutex_id) : M unit := emit (EvMutexInit m).
Definition lf_mutex_lock (m : mutex_id) : M unit := emit (EvLock m).
Definition lf_mutex_unlock (m : mutex_id) : M unit := emit (EvUnlock m).

(** Modelled from the spec: the counting semaphore of [utils/semaphore.c];
    the state is its number of permits, [None] when no semaphore is live. *)
Definition lf_semaphore_new (count : Z) : M unit :=
  modify (set_semaphore (Some count)).

Definition lf_semaphore_release (i : Z) : M unit :=
  do sem <- get _lf_sched_semaphore;
  match sem with
  | Some count =>
      run modify (set_semaphore (Some (count + i)));
      emit (EvSemRelease i)
  | None => undef
  end.

(** Takes a permit, or parks the caller when there is none. *)
Definition lf_semaphore_acquire : M unit :=
  do sem <- get _lf_sched_semaphore;
  match sem with
  | Some count =>
      if 0 <? count then
        run modify (set_semaphore (Some (count - 1)));
        emit EvSemAcquire
      else Blocked
  | None => undef
  end.

(** Returns 0 on success. *)
Definition lf_semaphore_destroy : M Z :=
  do sem <- get _lf_sched_semaphore;
  match sem with
  | Some _ =>
      run modify (set_semaphore None);
      run emit EvSemDestroy;
      ret 0
  | None => ret 1
  end.

(** Modelled from the spec: atomic compare-and-swap on [reaction->status]. *)
Definition lf_bool_compare_and_swap (r : ptr) (old new : reaction_status) : M bool :=
  do rs <- get reactions;
  do rec <- deref rs r;
  match r with
  | Some l =>
      if decide (status rec = old) then
        run modify (set_reactions <[l := mk_reaction (index rec) new]>);
        ret true
      else ret false
  | None => undef
  end.

(** Modelled from the spec: atomic fetch-and-add on the idle counter. *)
Definition lf_atomic_fetch_add (n : Z) : M Z :=
  do old <- get _lf_sched_number_of_idle_workers;
  run modify (set_idle_workers (to_size_t (old + n)));
  ret old.

(** *** Priority queues behind pointers *)

(** Modelled from the spec: the entry points of [pqueue.c] on a [pqueue_t*].
    A queue that is NULL or no longer live has no defined behaviour. *)

Definition pqueue_init : M ptr :=
  do qs <- get pqueues;
  let l := fresh (dom qs) in
  run modify (set_pqueues <[l := []]>);
  ret (Some l).

(** [pqueue_insert(q, d)]; the priority comes from [get_reaction_index(d)]. *)
Definition pqueue_insert_at (q : ptr) (d : ptr) : M unit :=
  do rs <- get reactions;
  do rec <- deref rs d;
  do qs <- get pqueues;
  do content <- deref qs q;
  match q, d with
  | Some lq, Some ld =>
      run modify (set_pqueues <[lq := pqueue_insert (index rec, ld) content]>);
      emit (EvInsert lq ld)
  | _, _ => undef
  end.

Definition pqueue_size_at (q : ptr) : M Z :=
  do qs <- get pqueues;
  do content <- deref qs q;
  ret (pqueue_size content).

Definition pqueue_pop_at (q : ptr) : M ptr :=
  do qs <- get pqueues;
  do content <- deref qs q;
  match q with
  | Some lq =>
      let '(e, rest) := pqueue_pop content in
      run modify (set_pqueues <[lq := rest]>);
      run emit (EvPop lq (snd <$> e));
      ret (snd <$> e)
  | None => undef
  end.

Definition pqueue_free (q : ptr) : M unit :=
  do qs <- get pqueues;
  do content <- deref qs q;
  match q with
  | Some lq =>
      run modify (set_pqueues (delete lq));
      emit (EvPqueueFree lq)
  | None => undef
  end.

(** [vector_of_reaction_qs[i]], as an rvalue and as an lvalue. *)
Definition vector_read (i : Z) : M ptr :=
  do v <- get vector_of_reaction_qs;
  match v !! Z.to_nat i with
  | Some q => ret q
  | None => undef
  end.

Definition vector_write (i : Z) (q : ptr) : M unit :=
  do v <- get vector_of_reaction_qs;
  if decide (Z.to_nat i < length v)%nat then
    modify (set_vector <[Z.to_nat i := q]>)
  else undef.

(** *** Scheduler private API *)

Definition _lf_sched_insert_reaction (reaction : ptr) : M unit :=
  do rs <- get reactions;
  do rec <- deref rs reaction;
  let reaction_level := to_size_t (LEVEL (index rec)) in
  do next <- get _lf_sched_next_reaction_level;
  let locked := FEDERATED && (reaction_level =? to_size_t (next - 1)) in
  run (if locked then lf_mutex_lock exec_q_mutex else ret tt);
  do q <- vector_read reaction_level;
  run pqueue_insert_at q reaction;
  if locked then lf_mutex_unlock exec_q_mutex else ret tt.

(** The [for] loop of the function below; [fuel] bounds its iterations. *)
Fixpoint distribute_loop (fuel : nat) : M Z :=
  match fuel with
  | O => out_of_fuel
  | S fuel' =>
      do level <- get _lf_sched_next_reaction_level;
      if level <=? Z.of_nat MAX_REACTION_LEVEL then
        do q <- vector_read level;
        run modify (set_executing_q q);
        do reactions_to_execute <- pqueue_size_at q;
        if reactions_to_execute =? 0 then
          run modify (set_next_level (to_size_t (level + 1)));
          distribute_loop fuel'
        else
          run modify (set_next_level (to_size_t (level + 1)));
          ret (to_int reactions_to_execute)
      else ret 0
  end.

Definition _lf_sched_distribute_ready_reactions_locked : M Z :=
  distribute_loop (S (S MAX_REACTION_LEVEL)).

(** Modelled from the spec: [logical_tag_complete], the hook of the federated
    coordinator, of which the source has only the declaration.  Only the call
    is recorded. *)
Definition logical_tag_complete (tag_to_send : tag) : M unit :=
  emit (EvTagComplete tag_to_send).

Definition _lf_sched_should_stop_locked : M bool :=
  do completed <- get _lf_logical_tag_completed;
  if completed then
    do now <- get current_tag;
    run logical_tag_complete now;
    do now' <- get current_tag;
    do stop <- get stop_tag;
    if compare_tags now' stop >=? 0 then ret true else ret false
  else ret false.

Definition _lf_sched_notify_workers : M unit :=
  do idle <- get _lf_sched_number_of_idle_workers;
  do q <- get executing_q;
  do size <- pqueue_size_at q;
  let workers_to_be_awaken := MIN idle size in
  run modify (set_idle_workers (to_size_t (idle - workers_to_be_awaken)));
  if 1 <? workers_to_be_awaken then
    lf_semaphore_release (to_size_t (workers_to_be_awaken - 1))
  else ret tt.

Definition _lf_sched_signal_stop : M unit :=
  run modify (set_should_stop true);
  do n <- get _lf_sched_number_of_workers;
  lf_semaphore_release (to_size_t (n - 1)).

(** *** Scheduler worker API: completion and triggering *)

Definition lf_sched_done_with_reaction (worker_number : Z) (done_reaction : ptr) : M unit :=
  do swapped <- lf_bool_compare_and_swap done_reaction queued inactive;
  if swapped then ret tt
  else
    do rs <- get reactions;
    do rec <- deref rs done_reaction;
    error_print_and_exit (UnexpectedReactionStatus (status rec) queued).

Definition lf_sched_trigger_reaction (reaction : ptr) (worker_number : Z) : M unit :=
  match reaction with
  | None => ret tt
  | Some _ =>
      do swapped <- lf_bool_compare_and_swap reaction inactive queued;
      if swapped then _lf_sched_insert_reaction reaction else ret tt
  end.

(** *** Tag advancement *)

Fixpoint trigger_all (rs : list ptr) : M unit :=
  match rs with
  | [] => ret tt
  | r :: rs' => run lf_sched_trigger_reaction r (-1); trigger_all rs'
  end.

(** Modelled from the spec: [_lf_next_locked], an external collaborator of
    which the source has only the declaration.  It advances [current_tag]
    and populates the reaction queues with the reactions whose triggers
    fired at the new tag, through [lf_sched_trigger_reaction]. *)
Definition _lf_next_locked : M unit :=
  run emit EvNext;
  do s <- get id;
  let '(t, rs) := next_events s in
  run modify (set_current_tag t);
  trigger_all rs.

Definition _lf_sched_advance_tag_locked : M bool :=
  do stop <- _lf_sched_should_stop_locked;
  if stop then ret true
  else
    run modify (set_tag_completed true);
    run _lf_next_locked;
    ret false.

(** The first statement of the loop body of
    [_lf_sched_try_advance_tag_and_distribute]; [true] stands for [break]. *)
Definition advance_if_drained : M bool :=
  do level <- get _lf_sched_next_reaction_level;
  if level =? Z.of_nat MAX_REACTION_LEVEL + 1 then
    run modify (set_next_level 0);
    run lf_mutex_lock global_mutex;
    do stop <- _lf_sched_advance_tag_locked;
    if stop then
      run _lf_sched_signal_stop;
      run lf_mutex_unlock global_mutex;
      ret true
    else
      run lf_mutex_unlock global_mutex;
      ret false
  else ret false.

Fixpoint _lf_sched_try_advance_tag_and_distribute (fuel : nat) : M unit :=
  match fuel with
  | O => out_of_fuel
  | S fuel' =>
      do stop <- advance_if_drained;
      if stop then ret tt
      else
        do distributed <- _lf_sched_distribute_ready_reactions_locked;
        if 0 <? distributed then _lf_sched_notify_workers
        else _lf_sched_try_advance_tag_and_distribute fuel'
  end.

(** The other threads run while the caller waits for its permit. *)
Definition _lf_sched_wait_for_work (fuel : nat) (worker_number : Z) : M unit :=
  do old <- lf_atomic_fetch_add 1;
  do n <- get _lf_sched_number_of_workers;
  if old =? to_size_t (n - 1) then
    _lf_sched_try_advance_tag_and_distribute fuel
  else
    run modify while_parked;
    lf_semaphore_acquire.

(** *** Init and destroy *)

Fixpoint init_loop (fuel : nat) (i : Z) : M unit :=
  match fuel with
  | O => out_of_fuel
  | S fuel' =>
      if i <=? Z.of_nat MAX_REACTION_LEVEL then
        do q <- pqueue_init;
        run vector_write i q;
        init_loop fuel' (to_size_t (i + 1))
      else ret tt
  end.

Definition lf_sched_init (number_of_workers : Z) : M unit :=
  run lf_semaphore_new 0;
  run modify (set_number_of_workers number_of_workers);
  run init_loop (S (S MAX_REACTION_LEVEL)) 0;
  do q <- vector_read 0;
  run modify (set_executing_q q);
  run modify (set_should_stop false);
  lf_mutex_init exec_q_mutex.

Definition lf_sched_free : M unit :=
  do q <- get executing_q;
  run pqueue_free q;
  do rc <- lf_semaphore_destroy;
  if rc =? 0 then ret tt
  else error_print_and_exit CouldNotDestroySemaphore.

(** The globals as the C initialisers leave them at program start. *)
Definition static_state (rs : gmap loc reaction) (now stop : tag) : sched :=
  {| reactions := rs;
     pqueues := ∅;
     current_tag := now;
     stop_tag := stop;
     _lf_sched_semaphore := None;
     _lf_sched_should_stop := false;
     vector_of_reaction_qs := replicate (S MAX_REACTION_LEVEL) None;
     executing_q := None;
     _lf_sched_number_of_workers := 1;
     _lf_sched_number_of_idle_workers := 0;
     _lf_logical_tag_completed := false;
     _lf_sched_next_reaction_level := 0;
     trace := [] |}.

(** *** Scheduler worker API: asking for work *)

Fixpoint lf_sched_get_ready_reaction (fuel : nat) (worker_number : Z) : M ptr :=
  match fuel with
  | O => out_of_fuel
  | S fuel' =>
      do stop <- get _lf_sched_should_stop;
      if stop then ret None
      else
        run lf_mutex_lock exec_q_mutex;
        do q <- get executing_q;
        do reaction_to_return <- pqueue_pop_at q;
        run lf_mutex_unlock exec_q_mutex;
        match reaction_to_return with
        | Some _ => ret reaction_to_return
        | None =>
            run _lf_sched_wait_for_work fuel' worker_number;
            lf_sched_get_ready_reaction fuel' worker_number
        end
  end.

(** ** The worker threads together *)

(** Where a worker thread stands between two accesses to the shared state. *)
Inductive pc :=
| AtLoopHead              (* about to test [_lf_sched_should_stop] *)
| AtPop                   (* about to pop [executing_q] under its mutex *)
| Running (r : loc)       (* executing the body of reaction [r] *)
| AtWait                  (* about to fetch-and-add the idle counter *)
| AtAcquire               (* waiting for a permit of the semaphore *)
| AtAdvance               (* elected, at the head of the advancer's loop *)
| AtDistribute            (* elected, about to scan for the next level *)
| AtNotify                (* elected, about to notify the workers *)
| Stopped.                (* [lf_sched_get_ready_reaction] returned NULL *)

(** One access of worker [w] to the shared state, and where it stands next.
    The code between two program points is that of
    [lf_sched_get_ready_reaction], [_lf_sched_wait_for_work] and
    [_lf_sched_try_advance_tag_and_distribute], cut at their calls. *)
Definition worker_step (w : Z) (p : pc) : M pc :=
  match p with
  | AtLoopHead =>
      do stop <- get _lf_sched_should_stop;
      ret (if stop then Stopped else AtPop)
  | AtPop =>
      run lf_mutex_lock exec_q_mutex;
      do q <- get executing_q;
      do reaction_to_return <- pqueue_pop_at q;
      run lf_mutex_unlock exec_q_mutex;
      ret (match reaction_to_return with Some r => Running r | None => AtWait end)
  | Running r =>
      run lf_sched_done_with_reaction w (Some r);
      ret AtLoopHead
  | AtWait =>
      do old <- lf_atomic_fetch_add 1;
      do n <- get _lf_sched_number_of_workers;
      ret (if old =? to_size_t (n - 1) then AtAdvance else AtAcquire)
  | AtAcquire =>
      run lf_semaphore_acquire;
      ret AtLoopHead
  | AtAdvance =>
      do stop <- advance_if_drained;
      ret (if stop then AtLoopHead else AtDistribute)
  | AtDistribute =>
      do distributed <- _lf_sched_distribute_ready_reactions_locked;
      ret (if 0 <? distributed then AtNotify else AtAdvance)
  | AtNotify =>
      run _lf_sched_notify_workers;
      ret AtLoopHead
  | Stopped => Blocked
  end.

Record system := mk_system { shared : sched; workers : list pc }.

(** Modelled from the spec: the worker routine of the threaded runtime, which
    calls [lf_sched_get_ready_reaction], runs the reaction it got, during
    which the reaction may trigger others, and reports it done.  A thread
    that is not a worker may trigger a reaction at any time.

    A transition is one whole access: a trigger, with its insert, is one
    transition.  The source takes no lock for the insert outside the
    federated same-level case, so in the program an insert can overlap a
    pop or another insert of the same queue; the relation has no such
    overlap.  It is used for the idle count, the semaphore and the stop
    flag, which no trigger writes. *)
Inductive step : system → system → Prop :=
| step_worker (w : nat) (p p' : pc) (s s' : sched) (ws : list pc) :
    ws !! w = Some p →
    worker_step (Z.of_nat w) p s = Ret p' s' →
    step (mk_system s ws) (mk_system s' (<[w := p']> ws))
| step_body_triggers (w : nat) (r : loc) (r' : ptr) (s s' : sched) (ws : list pc) :
    ws !! w = Some (Running r) →
    lf_sched_trigger_reaction r' (Z.of_nat w) s = Ret tt s' →
    step (mk_system s ws) (mk_system s' ws)
| step_anonymous_trigger (r' : ptr) (s s' : sched) (ws : list pc) :
    lf_sched_trigger_reaction r' (-1) s = Ret tt s' →
    step (mk_system s ws) (mk_system s' ws).

(** The states the program can be in after [lf_sched_init(n)] and the start
    of [n] workers. *)
Definition reachable (n : nat) (rs : gmap loc reaction) (now stop : tag)
    (sys : system) : Prop :=
  ∃ s0, lf_sched_init (Z.of_nat n) (static_state rs now stop) = Ret tt s0 ∧
        rtc step (mk_system s0 (replicate n AtLoopHead)) sys.

End Scheduler.

(** ** Vocabulary of the statements *)

Section Vocabulary.

Context `{RT : Runtime}.

(** The level of a reaction as [_lf_sched_insert_reaction] computes it from
    the reaction's index. *)
Definition level_of (idx : Z) : Z := to_size_t (LEVEL idx).

(** Whether [_lf_sched_insert_reaction] takes the executing-queue mutex. *)
Definition takes_lock (idx : Z) (s : sched) : bool :=
  FEDERATED && (level_of idx =? to_size_t (_lf_sched_next_reaction_level s - 1)).

(** The state after reaction [r] of index [idx] went into the queue at [q]. *)
Definition after_insert (r : loc) (idx : Z) (q : loc) (content : pqueue)
    (s : sched) : sched :=
  let s1 := if takes_lock idx s then record (EvLock exec_q_mutex) s else s in
  let s2 := record (EvInsert q r)
              (set_pqueues <[q := pqueue_insert (idx, r) content]> s1) in
  if takes_lock idx s then record (EvUnlock exec_q_mutex) s2 else s2.

(** The state after a status write to reaction [r]. *)
Definition with_status (r : loc) (rec : reaction) (st : reaction_status)
    (s : sched) : sched :=
  set_reactions <[r := mk_reaction (index rec) st]> s.

(** The queue behind slot [i] of [vector_of_reaction_qs]. *)
Definition slot (s : sched) (i : Z) (q : loc) (content : pqueue) : Prop :=
  vector_of_reaction_qs s !! Z.to_nat i = Some (Some q) ∧
  pqueues s !! q = Some content.

Definition slot_empty (s : sched) (i : Z) : Prop :=
  ∃ q, slot s i q [].

(** Every level has a live queue whose size an [int] can hold. *)
Definition slots_live (s : sched) : Prop :=
  ∀ i, 0 ≤ i ≤ Z.of_nat MAX_REACTION_LEVEL →
    ∃ q content, slot s i q content ∧ pqueue_size content < 2 ^ 31.

Definition slot_liveb (s : sched) (i : nat) : bool :=
  match vector_of_reaction_qs s !! i with
  | Some (Some q) =>
      match pqueues s !! q with
      | Some content => pqueue_size content <? 2 ^ 31
      | None => false
      end
  | _ => false
  end.

Definition slots_liveb (s : sched) : bool :=
  forallb (slot_liveb s) (seq 0 (S MAX_REACTION_LEVEL)).

(** Each queue holds reactions of the level whose slot points to it. *)
Definition levels_in_place (s : sched) : Prop :=
  ∀ i q content e, 0 ≤ i → slot s i q content → e ∈ content →
    to_size_t (LEVEL e.1) = i.

End Vocabulary.

(** Two states that differ at most in the reactions, the queues' contents
    and the trace. *)
Definition same_control (s s' : sched) : Prop :=
  current_tag s' = current_tag s ∧
  stop_tag s' = stop_tag s ∧
  _lf_sched_semaphore s' = _lf_sched_semaphore s ∧
  _lf_sched_should_stop s' = _lf_sched_should_stop s ∧
  vector_of_reaction_qs s' = vector_of_reaction_qs s ∧
  executing_q s' = executing_q s ∧
  _lf_sched_number_of_workers s' = _lf_sched_number_of_workers s ∧
  _lf_sched_number_of_idle_workers s' = _lf_sched_number_of_idle_workers s ∧
  _lf_logical_tag_completed s' = _lf_logical_tag_completed s ∧
  _lf_sched_next_reaction_level s' = _lf_sched_next_reaction_level s.

(** [s'] comes from [s] by triggers only: the control variables are the
    same and no queue lost an entry. *)
Definition enqueue_only (s s' : sched) : Prop :=
  same_control s s' ∧
  ∀ q content, pqueues s !! q = Some content →
    ∃ content', pqueues s' !! q = Some content' ∧
                (length content ≤ length content')%nat.

(** What a scan that started in state [s] found: the number [k] it returned
    and the state [s'] it left. *)
Definition scan_found `{RT : Runtime} (s : sched) (k : Z) (s' : sched) : Prop :=
  ∃ lvl q content,
    _lf_sched_next_reaction_level s ≤ lvl ≤ Z.of_nat MAX_REACTION_LEVEL ∧
    slot s lvl q content ∧
    k = pqueue_size content ∧
    executing_q s' = Some q ∧
    _lf_sched_next_reaction_level s' = lvl + 1 ∧
    (∀ j, _lf_sched_next_reaction_level s ≤ j < lvl → slot_empty s j) ∧
    (levels_in_place s →
     ∀ e, e ∈ content →
       to_size_t (LEVEL e.1) = _lf_sched_next_reaction_level s' - 1).

Definition scan_exhausted `{RT : Runtime} (s s' : sched) : Prop :=
  _lf_sched_next_reaction_level s' = Z.of_nat MAX_REACTION_LEVEL + 1 ∧
  ∀ j, _lf_sched_next_reaction_level s ≤ j ≤ Z.of_nat MAX_REACTION_LEVEL →
    slot_empty s j.

(** The state after a worker popped [r] (or nothing) off the queue at [q],
    whose content becomes [rest], between lock and unlock of the mutex. *)
Definition after_pop (q : loc) (r : ptr) (rest : pqueue) (s : sched) : sched :=
  record (EvUnlock exec_q_mutex)
    (record (EvPop q r)
       (set_pqueues <[q := rest]> (record (EvLock exec_q_mutex) s))).

(** [s'] is what a pop of the executing queue under its mutex makes of [s1],
    and [r] was a reaction of least index in that queue. *)
Definition popped_min (s1 : sched) (r : loc) (s' : sched) : Prop :=
  ∃ q content idx,
    _lf_sched_should_stop s1 = false ∧
    executing_q s1 = Some q ∧
    pqueues s1 !! q = Some content ∧
    (idx, r) ∈ content ∧
    (∀ e, e ∈ content → idx ≤ e.1) ∧
    s' = after_pop q (Some r) (pqueue_remove (idx, r) content) s1.

Section Loop.

Context `{RT : Runtime}.

(** One turn of the loop of [lf_sched_get_ready_reaction] that finds nothing
    to pop: at the loop head in [s] the flag is clear and the executing
    queue is empty, and [_lf_sched_wait_for_work], with loop budget [fuel],
    returns in [s'], the state at the next loop head. *)
Definition idle_turn (fuel : nat) (w : Z) (s s' : sched) : Prop :=
  ∃ q content,
    _lf_sched_should_stop s = false ∧
    executing_q s = Some q ∧
    pqueues s !! q = Some content ∧
    pqueue_peek content = None ∧
    _lf_sched_wait_for_work fuel w (after_pop q None content s) = Ret tt s'.

(** [loop_head fuel w s s1]: the call of [lf_sched_get_ready_reaction] with
    loop budget [fuel] that starts in [s] is at its loop head in [s1], at
    entry or after idle turns. *)
Inductive loop_head : nat → Z → sched → sched → Prop :=
| loop_head_entry (fuel : nat) (w : Z) (s : sched) :
    loop_head fuel w s s
| loop_head_turn (fuel : nat) (w : Z) (s s2 s1 : sched) :
    idle_turn fuel w s s2 →
    loop_head fuel w s2 s1 →
    loop_head (S fuel) w s s1.

End Loop.

(** *** The idle count across the workers *)

Definition parked (p : pc) : bool :=
  match p with AtAcquire => true | _ => false end.

Definition elected (p : pc) : bool :=
  match p with AtAdvance | AtDistribute | AtNotify => true | _ => false end.

Definition winding_down (p : pc) : bool :=
  match p with AtAcquire | AtLoopHead | Stopped => true | _ => false end.

Fixpoint count_parked (ws : list pc) : Z :=
  match ws with
  | [] => 0
  | p :: ws' => (if parked p then 1 else 0) + count_parked ws'
  end.

(** The executing queue is live and not empty. *)
Definition queue_ready (s : sched) : Prop :=
  ∃ q content, executing_q s = Some q ∧ pqueues s !! q = Some content ∧
               content ≠ [].

(** Workers drain the executing queue: nobody is elected, and the idle count
    is the number of workers waiting for a permit less the permits on offer. *)
Definition draining (s : sched) (ws : list pc) : Prop :=
  _lf_sched_should_stop s = false ∧
  (∃ c, _lf_sched_semaphore s = Some c ∧ 0 ≤ c ∧
        _lf_sched_number_of_idle_workers s + c = count_parked ws) ∧
  ∀ w p, ws !! w = Some p → elected p = false.

(** One worker is elected; all the others wait and no permit is on offer. *)
Definition advancing (n : Z) (s : sched) (ws : list pc) : Prop :=
  _lf_sched_should_stop s = false ∧
  _lf_sched_semaphore s = Some 0 ∧
  _lf_sched_number_of_idle_workers s = n ∧
  ∃ w p, ws !! w = Some p ∧ elected p = true ∧
         (p = AtNotify → queue_ready s) ∧
         ∀ w' p', w' ≠ w → ws !! w' = Some p' → p' = AtAcquire.

(** The stop was signalled; every worker is on its way out. *)
Definition stopping (n : Z) (s : sched) (ws : list pc) : Prop :=
  _lf_sched_should_stop s = true ∧
  _lf_sched_number_of_idle_workers s = n ∧
  ∀ w p, ws !! w = Some p → winding_down p = true.

Definition idle_invariant (n : Z) (sys : system) : Prop :=
  Z.of_nat (length (workers sys)) = n ∧
  n < 2 ^ SIZE_WIDTH ∧
  _lf_sched_number_of_workers (shared sys) = n ∧
  0 ≤ _lf_sched_number_of_idle_workers (shared sys) ∧
  (draining (shared sys) (workers sys) ∨
   advancing n (shared sys) (workers sys) ∨
   stopping n (shared sys) (workers sys)).

(** Two states with the same semaphore, stop flag and worker counts. *)
Definition same_counters (s s' : sched) : Prop :=
  _lf_sched_semaphore s' = _lf_sched_semaphore s ∧
  _lf_sched_should_stop s' = _lf_sched_should_stop s ∧
  _lf_sched_number_of_idle_workers s' = _lf_sched_number_of_idle_workers s ∧
  _lf_sched_number_of_workers s' = _lf_sched_number_of_workers s.

(** Whether the previous tag is complete and was the last one. *)
Definition stop_reached `{RT : Runtime} (s : sched) : bool :=
  _lf_logical_tag_completed s && (compare_tags (current_tag s) (stop_tag s) >=? 0).

Fixpoint count_next (t : list event) : nat :=
  match t with
  | [] => O
  | EvNext :: t' => S (count_next t')
  | _ :: t' => count_next t'
  end.

Fixpoint count_tag_complete (t : list event) : nat :=
  match t with
  | [] => O
  | EvTagComplete _ :: t' => S (count_tag_complete t')
  | _ :: t' => count_tag_complete t'
  end.

(** ** The shape of the queues *)

Section Shape.

Context `{RT : Runtime}.

(** Every slot of [vector_of_reaction_qs] points to a live queue of its own. *)
Definition slots_allocated (s : sched) : Prop :=
  ∃ ls : list loc,
    vector_of_reaction_qs s = Some <$> ls ∧
    length ls = S MAX_REACTION_LEVEL ∧
    NoDup ls ∧
    ∀ l, l ∈ ls → is_Some (pqueues s !! l).

(** No queue holds a reaction twice, and every entry of a queue is a
    reaction whose status is [queued] and whose index is the entry's
    priority. *)
Definition queues_consistent (s : sched) : Prop :=
  ∀ q content, pqueues s !! q = Some content →
    NoDup content.*2 ∧
    ∀ idx r, (idx, r) ∈ content →
      ∃ rec, reactions s !! r = Some rec ∧ status rec = queued ∧
             index rec = idx.

Definition well_formed (s : sched) : Prop :=
  slots_allocated s ∧ levels_in_place s ∧ queues_consistent s.

(** Two states with the same reactions, queues and array of queues. *)
Definition same_store (s s' : sched) : Prop :=
  reactions s' = reactions s ∧
  pqueues s' = pqueues s ∧
  vector_of_reaction_qs s' = vector_of_reaction_qs s.

End Shape.

(** How often mutex [m] was locked less how often it was unlocked. *)
Fixpoint lock_depth (m : mutex_id) (t : list event) : Z :=
  match t with
  | [] => 0
  | EvLock m' :: t' =>
      (if decide (m' = m) then 1 else 0) + lock_depth m t'
  | EvUnlock m' :: t' =>
      lock_depth m t' - (if decide (m' = m) then 1 else 0)
  | _ :: t' => lock_depth m t'
  end.

(** ** Vocabulary of the further properties *)

(** Reaction [r] is an entry of the live queue [q]. *)
Definition in_queue (s : sched) (r : loc) (q : loc) : Prop :=
  ∃ content, pqueues s !! q = Some content ∧ r ∈ content.*2.

(** The queues are consistent, no reaction is in two queues, and a reaction
    that is held (by a worker that runs it) is queued and in no queue. *)
Definition exclusive `{RT : Runtime} (held : loc → Prop) (s : sched) : Prop :=
  queues_consistent s ∧
  (∀ r q1 q2, in_queue s r q1 → in_queue s r q2 → q1 = q2) ∧
  ∀ r, held r →
    (∃ rec, reactions s !! r = Some rec ∧ status rec = queued) ∧
    ∀ q, ¬ in_queue s r q.

(** A call that neither exits the process nor leaves its caller waiting. *)
Definition quiet {A} (r : result A) : Prop :=
  match r with
  | Blocked _ | Exit _ _ => False
  | _ => True
  end.

Section Further.

Context `{RT : Runtime}.

(** What a call keeps from [s] to [s']: the shape of the queues, that
    reactions are in one place only, and how deep each mutex is locked. *)
Definition kept (s s' : sched) : Prop :=
  (well_formed s → well_formed s') ∧
  (∀ held, exclusive held s → exclusive held s') ∧
  ∀ m, lock_depth m (trace s') = lock_depth m (trace s).

(** The first [k] slots point to distinct live queues, the others are NULL,
    and every live queue is empty. *)
Definition initialised_up_to (k : nat) (s : sched) : Prop :=
  ∃ ls : list loc,
    length ls = k ∧ NoDup ls ∧
    vector_of_reaction_qs s =
      (Some <$> ls) ++ replicate (S MAX_REACTION_LEVEL - k) None ∧
    (∀ l, l ∈ ls → is_Some (pqueues s !! l)) ∧
    (∀ l c, pqueues s !! l = Some c → c = []).

(** The workers named in [order] take one step each, in that order. *)
Fixpoint run_workers (order : list nat) (sys : system) : option system :=
  match order with
  | [] => Some sys
  | w :: order' =>
      match workers sys !! w with
      | Some p =>
          match worker_step (Z.of_nat w) p (shared sys) with
          | Ret p' s' => run_workers order' (mk_system s' (<[w := p']> (workers sys)))
          | _ => None
          end
      | None => None
      end
  end.

End Further.

(** ** Windows platform support

    The arithmetic of [platform/lf_windows_support.c].  What the operating
    system answers (system time, performance counter, the status of a
    delay, the result of a sleep) is an argument of the functions; a
    computation that overflows [long long] or divides by zero has no defined
    behaviour and is [None]. *)

(** Constants of the C headers the file is compiled against. *)
Class Platform := {
  BILLION : Z;
  CLOCK_REALTIME : Z;
  CLOCK_MONOTONIC : Z;
  EINVAL : Z;
  EINTR : Z
}.

(** A value of type [long long], if the mathematical result is one. *)
Definition llong (z : Z) : option Z :=
  if (- 2 ^ 63 <=? z) && (z <? 2 ^ 63) then Some z else None.

(** [a / b] and [a % b] on [long long]. *)
Definition ll_div (a b : Z) : option Z :=
  if b =? 0 then None else llong (Z.quot a b).

Definition ll_rem (a b : Z) : option Z :=
  if b =? 0 then None
  else if (a =? - 2 ^ 63) && (b =? -1) then None
  else Some (Z.rem a b).

Arguments llong : simpl never.
Arguments ll_div : simpl never.
Arguments ll_rem : simpl never.

(** Conversion to [long], 32 bits wide on Windows, and to [DWORD]. *)
Definition to_long (z : Z) : Z := to_int z.
Definition to_dword (z : Z) : Z := z mod 2 ^ 32.

Record timespec := mk_timespec { tv_sec : Z; tv_nsec : Z }.

(** What the operating system reports when asked: the system time in units
    of 100 ns since 1601, and the status and values of the performance
    counter. *)
Record readings := mk_readings {
  system_time : Z;
  counter_status : Z;
  counts : Z;
  counts_per_sec : Z
}.

Definition days_from_1601_to_1970 : Z := 134774.

Section Windows.

Context `{PF : Platform}.

(** Returns the result, the contents of [*tp] and [errno]. *)
Definition lf_clock_gettime (clk_id : Z) (os : readings) (tp : timespec)
    (errno : Z) : option (Z * timespec * Z) :=
  if clk_id =? CLOCK_REALTIME then
    offset ← llong (days_from_1601_to_1970 * 24 * 60 * 60 * 1000 * 1000 * 10);
    timestamp ← llong (system_time os - offset);
    unit ← ll_div BILLION 100;
    sec ← ll_div timestamp unit;
    rest ← ll_rem timestamp unit;
    nsec ← llong (rest * 100);
    Some (0, mk_timespec sec (to_long nsec), errno)
  else if clk_id =? CLOCK_MONOTONIC then
    if counter_status os =? 0 then
      sec ← ll_div (counts os) (counts_per_sec os);
      rest ← ll_rem (counts os) (counts_per_sec os);
      scaled ← llong (rest * BILLION);
      nsec ← ll_div scaled (counts_per_sec os);
      Some (0, mk_timespec sec (to_long nsec), errno)
    else Some (-1, tp, EINVAL)
  else Some (-1, tp, EINVAL).

(** [delay_status alertable duration] is the status [NtDelayExecution]
    returns.  Returns the result, the duration handed to
    [NtDelayExecution], the contents of [*remaining] and [errno]. *)
Definition lf_nanosleep (clk_id : Z) (requested_time : timespec)
    (remaining : option timespec) (delay_status : Z → Z → Z) (os : readings)
    (errno : Z) : option (Z * Z * option timespec * Z) :=
  let alertable := match remaining with Some _ => 1 | None => 0 end in
  unit ← ll_div BILLION 100;
  whole ← llong (tv_sec requested_time * unit);
  total ← llong (whole + Z.quot (tv_nsec requested_time) 100);
  duration ← llong (- total);
  let status := delay_status alertable duration in
  let result := if status =? 0 then 0 else -1 in
  match remaining with
  | Some rem =>
      if status <? 0 then Some (result, duration, remaining, EINVAL)
      else if 0 <? status then
        '(rc, rem', errno') ← lf_clock_gettime clk_id os rem errno;
        Some (result, duration, Some rem', if rc =? 0 then EINTR else errno')
      else Some (result, duration, remaining, errno)
  | None => Some (result, duration, None, errno)
  end.

(** The timeout of [lf_cond_timedwait], in milliseconds. *)
Definition relative_time_ms (absolute_time_ns start_time : Z) : option Z :=
  diff ← llong (absolute_time_ns - start_time);
  ms ← ll_div diff 1000000;
  Some (to_dword ms).

(** [sleep timeout] is what [SleepConditionVariableCS] returns. *)
Definition lf_cond_timedwait (sleep : Z → Z) (absolute_time_ns start_time : Z) :
    option Z :=
  timeout ← relative_time_ms absolute_time_ns start_time;
  Some (to_int (sleep timeout)).

End Windows.

(** ** A small program to run the scheduler on *)

(** Lexicographic comparison of tags, as [compare_tags] of [tag.c] does it. *)
Definition example_compare_tags (a b : tag) : Z :=
  if time a <? time b then -1
  else if time b <? time a then 1
  else if microstep a <? microstep b then -1
  else if microstep b <? microstep a then 1
  else 0.

(** Three levels; the level is the low 16 bits of the index; every tag
    advance moves logical time on by one and triggers nothing. *)
Definition example_runtime (federated : bool) : Runtime :=
  {| LEVEL := λ idx, Z.land idx 65535;
     MAX_REACTION_LEVEL := 2;
     FEDERATED := federated;
     compare_tags := example_compare_tags;
     next_events := λ s, (mk_tag (time (current_tag s) + 1) 0, []);
     while_parked := λ s, s |}.

(** Reactions 10 and 12 at level 0, 11 at level 1, and 13, already queued,
    at level 2. *)
Definition example_reactions : gmap loc reaction :=
  <[10%nat := mk_reaction 0 inactive]>
    (<[11%nat := mk_reaction 65537 inactive]>
       (<[12%nat := mk_reaction 65536 inactive]>
          (<[13%nat := mk_reaction 2 queued]> ∅))).

(** The state a computation ends in, or the state it started from when it
    does not return. *)
Definition state_after {A} (m : M A) (s : sched) : sched :=
  match m s with
  | Ret _ s' => s'
  | _ => s
  end.

(** After [lf_sched_init(2)]. *)
Definition example_initialised (federated : bool) : sched :=
  state_after (lf_sched_init (RT := example_runtime federated) 2)
    (static_state (RT := example_runtime federated) example_reactions
       (mk_tag 0 0) (mk_tag 5 0)).

(** After reaction 10 was triggered and the advancer made level 0 the level
    being drained: [executing_q] is the queue of level 0 and the next level
    is 1. *)
Definition example_draining (federated : bool) : sched :=
  state_after
    (run lf_sched_trigger_reaction (RT := example_runtime federated) (Some 10%nat) 0;
     _lf_sched_distribute_ready_reactions_locked (RT := example_runtime federated))
    (example_initialised federated).

(** After reactions 10, 12 and 11 were triggered, with two workers idle. *)
Definition example_loaded : sched :=
  state_after
    (run lf_sched_trigger_reaction (RT := example_runtime false) (Some 12%nat) 0;
     run lf_sched_trigger_reaction (RT := example_runtime false) (Some 10%nat) 0;
     run lf_sched_trigger_reaction (RT := example_runtime false) (Some 11%nat) 0;
     modify (set_idle_workers 2))
    (example_initialised false).

(** After reaction 11, of level 1, was triggered. *)
Definition example_level_one : sched :=
  state_after
    (lf_sched_trigger_reaction (RT := example_runtime false) (Some 11%nat) 0)
    (example_initialised false).

(** One worker, and a stop tag that is the start tag. *)
Definition example_single : sched :=
  state_after (lf_sched_init (RT := example_runtime false) 1)
    (static_state (RT := example_runtime false) example_reactions
       (mk_tag 0 0) (mk_tag 0 0)).



(** Reaction 14 has level 7, beyond the three levels of the array. *)
Definition example_far_level : sched :=
  set_reactions <[14%nat := mk_reaction 7 inactive]> (example_initialised false).

Definition windows_platform : Platform :=
  {| BILLION := 1000000000; CLOCK_REALTIME := 0; CLOCK_MONOTONIC := 1;
     EINVAL := 22; EINTR := 4 |}.

Definition example_readings : readings :=
  {| system_time := 132539328000000015; counter_status := 0;
     counts := 25000001; counts_per_sec := 10000000 |}.

(** After reactions 12, 10 and 11 were triggered and a worker took reaction
    10 off the executing queue. *)
Definition example_handed_out : sched :=
  state_after (lf_sched_get_ready_reaction (RT := example_runtime false) 1 0)
    example_loaded.

(** As [example_runtime false], but every tag advance triggers reactions
    12, 10 and 11. *)
Definition busy_runtime : Runtime :=
  {| LEVEL := λ idx, Z.land idx 65535;
     MAX_REACTION_LEVEL := 2;
     FEDERATED := false;
     compare_tags := example_compare_tags;
     next_events := λ s, (mk_tag (time (current_tag s) + 1) 0,
                          [Some 12%nat; Some 10%nat; Some 11%nat]);
     while_parked := λ s, s |}.

(** After [lf_sched_init(n)] under [busy_runtime]. *)
Definition busy_initialised (n : Z) : sched :=
  state_after (lf_sched_init (RT := busy_runtime) n)
    (static_state (RT := busy_runtime) example_reactions (mk_tag 0 0) (mk_tag 5 0)).

(** Two workers go through a first round (both find nothing, the first
    waits, the second advances the tag, distributes level 0 and notifies;
    both run a reaction) and into a second: the first waits again, the
    second found level 1 and is about to notify. *)
Definition busy_order : list nat :=
  [0; 0; 0; 1; 1; 1; 1; 1; 1; 1; 1; 0; 0; 0; 1; 1; 0; 1; 0; 0; 0; 1; 1; 1; 1; 1]%nat.

Definition busy_second_round : system :=
  default (mk_system (busy_initialised 2) [])
    (run_workers (RT := busy_runtime) busy_order
       (mk_system (busy_initialised 2) (replicate 2 AtLoopHead))).

(** ** Proofs *)

Ltac monad_unfold :=
  unfold deref in *;
  unfold bind, get, modify, emit, ret, undef, error_print_and_exit,
    out_of_fuel in *.

Ltac sched_unfold :=
  unfold after_pop, with_status, record, set_reactions, set_pqueues, set_current_tag,
    set_semaphore, set_should_stop, set_vector, set_executing_q,
    set_number_of_workers, set_idle_workers, set_tag_completed,
    set_next_level in *.

(** Runs the monadic code of the goal as far as the known lookups allow. *)
Ltac run_code :=
  unfold vector_read, vector_write, pqueue_insert_at, pqueue_size_at,
    pqueue_pop_at, pqueue_free, pqueue_init, lf_mutex_init, lf_mutex_lock,
    lf_mutex_unlock, lf_semaphore_new, lf_semaphore_release,
    lf_semaphore_acquire, lf_semaphore_destroy, lf_atomic_fetch_add,
    lf_bool_compare_and_swap, logical_tag_complete;
  monad_unfold; sched_unfold; simpl.

Section Proofs.

Context `{RT : Runtime}.

(** *** Compare-and-swap *)

Lemma cas_hit (r : loc) (rec : reaction) (old new : reaction_status) (s : sched) :
  reactions s !! r = Some rec → status rec = old →
  lf_bool_compare_and_swap (Some r) old new s = Ret true (with_status r rec new s).
Proof.
  intros Hr Hs. run_code. rewrite Hr.
  destruct (decide (status rec = old)); [reflexivity | contradiction].
Qed.

Lemma cas_miss (r : loc) (rec : reaction) (old new : reaction_status) (s : sched) :
  reactions s !! r = Some rec → status rec ≠ old →
  lf_bool_compare_and_swap (Some r) old new s = Ret false s.
Proof.
  intros Hr Hs. run_code. rewrite Hr.
  destruct (decide (status rec = old)); [contradiction | reflexivity].
Qed.

Lemma cas_dangling (r : loc) (old new : reaction_status) (s : sched) :
  reactions s !! r = None →
  lf_bool_compare_and_swap (Some r) old new s = Undef.
Proof. intros Hr. run_code. rewrite Hr. reflexivity. Qed.

(** *** Insertion *)

Lemma insert_reaction_ret (r : loc) (rec : reaction) (q : loc) (content : pqueue)
    (s : sched) :
  reactions s !! r = Some rec →
  slot s (level_of (index rec)) q content →
  _lf_sched_insert_reaction (Some r) s =
    Ret tt (after_insert r (index rec) q content s).
Proof.
  intros Hr [Hv Hq].
  unfold _lf_sched_insert_reaction, after_insert, takes_lock, level_of in *.
  run_code. rewrite Hr.
  destruct (FEDERATED && _) eqn:Hl; simpl; rewrite Hv; simpl; rewrite Hr;
    simpl; rewrite Hq; reflexivity.
Qed.

(** Insertion either has no defined behaviour or ends as [after_insert] says. *)
Lemma insert_reaction_cases (r : loc) (s : sched) :
  _lf_sched_insert_reaction (Some r) s = Undef ∨
  ∃ rec q content,
    reactions s !! r = Some rec ∧ slot s (level_of (index rec)) q content ∧
    _lf_sched_insert_reaction (Some r) s =
      Ret tt (after_insert r (index rec) q content s).
Proof.
  destruct (reactions s !! r) as [rec|] eqn:Hr.
  - destruct (vector_of_reaction_qs s !! Z.to_nat (level_of (index rec)))
      as [[q|]|] eqn:Hv.
    + destruct (pqueues s !! q) as [content|] eqn:Hq.
      * right. exists rec, q, content. split; [done|]. split; [done|].
        apply insert_reaction_ret; done.
      * left. unfold _lf_sched_insert_reaction, level_of in *.
        run_code. rewrite Hr.
        destruct (FEDERATED && _); simpl; rewrite Hv; simpl; rewrite Hr;
          simpl; rewrite Hq; done.
    + left. unfold _lf_sched_insert_reaction, level_of in *.
      run_code. rewrite Hr.
      destruct (FEDERATED && _); simpl; rewrite Hv; simpl; rewrite Hr; done.
    + left. unfold _lf_sched_insert_reaction, level_of in *.
      run_code. rewrite Hr.
      destruct (FEDERATED && _); simpl; rewrite Hv; done.
  - left. unfold _lf_sched_insert_reaction. run_code. rewrite Hr. done.
Qed.

(** *** Triggering *)

Lemma trigger_null (w : Z) (s : sched) :
  lf_sched_trigger_reaction None w s = Ret tt s.
Proof. reflexivity. Qed.

Lemma trigger_absorbed (r : loc) (rec : reaction) (w : Z) (s : sched) :
  reactions s !! r = Some rec → status rec ≠ inactive →
  lf_sched_trigger_reaction (Some r) w s = Ret tt s.
Proof.
  intros Hr Hs. unfold lf_sched_trigger_reaction, bind.
  rewrite (cas_miss r rec) by done. reflexivity.
Qed.

Lemma trigger_enqueues (r : loc) (rec : reaction) (q : loc) (content : pqueue)
    (w : Z) (s : sched) :
  reactions s !! r = Some rec → status rec = inactive →
  slot s (level_of (index rec)) q content →
  lf_sched_trigger_reaction (Some r) w s =
    Ret tt (after_insert r (index rec) q content (with_status r rec queued s)).
Proof.
  intros Hr Hs Hslot. unfold lf_sched_trigger_reaction, bind.
  rewrite (cas_hit r rec) by done.
  apply (insert_reaction_ret r (mk_reaction (index rec) queued)).
  - unfold with_status. simpl. apply lookup_insert_eq.
  - exact Hslot.
Qed.

(** The three ways a trigger of a non-null reaction can end. *)
Lemma trigger_cases (r : loc) (w : Z) (s : sched) :
  lf_sched_trigger_reaction (Some r) w s = Undef ∨
  (∃ rec, reactions s !! r = Some rec ∧ status rec ≠ inactive ∧
          lf_sched_trigger_reaction (Some r) w s = Ret tt s) ∨
  (∃ rec q content,
     reactions s !! r = Some rec ∧ status rec = inactive ∧
     slot s (level_of (index rec)) q content ∧
     lf_sched_trigger_reaction (Some r) w s =
       Ret tt (after_insert r (index rec) q content (with_status r rec queued s))).
Proof.
  destruct (reactions s !! r) as [rec|] eqn:Hr.
  - destruct (decide (status rec = inactive)) as [Hs|Hs].
    + destruct (insert_reaction_cases r (with_status r rec queued s))
        as [Hu | (rec' & q & content & Hr' & Hslot & Hins)].
      * left. unfold lf_sched_trigger_reaction, bind.
        rewrite (cas_hit r rec) by done. exact Hu.
      * right. right. exists rec, q, content.
        unfold with_status in Hr'. simpl in Hr'.
        rewrite lookup_insert_eq in Hr'. injection Hr' as <-.
        split; [done|]. split; [done|]. split; [exact Hslot|].
        apply trigger_enqueues; done.
    + right. left. exists rec. split; [done|]. split; [done|].
      apply trigger_absorbed with rec; done.
  - left. unfold lf_sched_trigger_reaction, bind.
    rewrite cas_dangling by done. reflexivity.
Qed.

Lemma trigger_twice (r : ptr) (w w' : Z) (s : sched) :
  (run lf_sched_trigger_reaction r w; lf_sched_trigger_reaction r w') s =
  lf_sched_trigger_reaction r w s.
Proof.
  destruct r as [r|]; [|reflexivity].
  unfold bind at 1.
  destruct (trigger_cases r w s)
    as [Hu | [(rec & Hr & Hs & Heq) | (rec & q & content & Hr & Hs & Hslot & Heq)]].
  - rewrite Hu. reflexivity.
  - rewrite Heq. apply trigger_absorbed with rec; done.
  - rewrite Heq.
    apply trigger_absorbed with (mk_reaction (index rec) queued); [|done].
    unfold after_insert, with_status.
    destruct (takes_lock _ _); simpl; apply lookup_insert_eq.
Qed.

(** A trigger leaves everything but the reactions, the queues' contents and
    the trace alone; it calls neither external hook, and no queue shrinks. *)
Lemma trigger_frame (r : ptr) (w : Z) (s s' : sched) :
  lf_sched_trigger_reaction r w s = Ret tt s' →
  same_control s s' ∧
  count_next (trace s') = count_next (trace s) ∧
  count_tag_complete (trace s') = count_tag_complete (trace s) ∧
  ∀ q content, pqueues s !! q = Some content →
    ∃ content', pqueues s' !! q = Some content' ∧
                (length content ≤ length content')%nat.
Proof.
  intros Heq.
  assert (Hid : same_control s s ∧
    count_next (trace s) = count_next (trace s) ∧
    count_tag_complete (trace s) = count_tag_complete (trace s) ∧
    ∀ q content, pqueues s !! q = Some content →
      ∃ content', pqueues s !! q = Some content' ∧
                  (length content ≤ length content')%nat).
  { unfold same_control. repeat split. intros q content Hq. eauto. }
  destruct r as [r|]; [|injection Heq as <-; exact Hid].
  destruct (trigger_cases r w s)
    as [Hu | [(rec & Hr & Hs & Heq') | (rec & q & content & Hr & Hs & Hslot & Heq')]];
    rewrite Heq in *; [discriminate | injection Heq' as ->; exact Hid |].
  injection Heq' as ->. destruct Hslot as [Hv Hq].
  unfold after_insert, same_control.
  destruct (takes_lock _ _); sched_unfold; simpl; repeat split;
    intros q' content' Hq';
    (destruct (decide (q = q')) as [<-|Hne];
     [ rewrite lookup_insert_eq; rewrite Hq in Hq'; injection Hq' as <-;
       eexists; split; [reflexivity|]; unfold pqueue_insert;
       rewrite length_app; simpl; lia
     | rewrite lookup_insert_ne by done; eauto ]).
Qed.

(** X20: a trigger of a non-null reaction whose status is [inactive] sets the
    status to [queued] and inserts the reaction into the queue of its level;
    with any other status the call changes nothing.  Two triggers in a row,
    with nothing between them, are the same as one, and a trigger of NULL
    changes nothing. *)
Theorem lf_sched_trigger_reaction_spec (r : loc) (rec : reaction) (w : Z)
    (s : sched) :
  reactions s !! r = Some rec →
  (status rec = inactive →
   ∀ q content, slot s (level_of (index rec)) q content →
     lf_sched_trigger_reaction (Some r) w s =
       Ret tt (after_insert r (index rec) q content (with_status r rec queued s))) ∧
  (status rec ≠ inactive →
   lf_sched_trigger_reaction (Some r) w s = Ret tt s) ∧
  (∀ w', (run lf_sched_trigger_reaction (Some r) w;
          lf_sched_trigger_reaction (Some r) w') s =
         lf_sched_trigger_reaction (Some r) w s) ∧
  lf_sched_trigger_reaction None w s = Ret tt s.
Proof.
  intros Hr. split; [|split; [|split]].
  - intros Hs q content Hslot. apply trigger_enqueues; done.
  - intros Hs. apply trigger_absorbed with rec; done.
  - intros w'. apply trigger_twice.
  - apply trigger_null.
Qed.


(** *** Completion *)

(** C6: [lf_sched_done_with_reaction] swaps the status of a reaction from
    [queued] to [inactive] and changes nothing else; with any other status
    the process exits with the diagnostic that names the status it saw. *)
Theorem lf_sched_done_with_reaction_spec (w : Z) (r : loc) (rec : reaction)
    (s : sched) :
  reactions s !! r = Some rec →
  (status rec = queued →
   lf_sched_done_with_reaction w (Some r) s = Ret tt (with_status r rec inactive s)) ∧
  (status rec ≠ queued →
   lf_sched_done_with_reaction w (Some r) s =
     Exit (UnexpectedReactionStatus (status rec) queued) s).
Proof.
  intros Hr. split; intros Hs; unfold lf_sched_done_with_reaction, bind at 1.
  - rewrite (cas_hit r rec) by done. reflexivity.
  - rewrite (cas_miss r rec) by done. run_code. rewrite Hr. reflexivity.
Qed.

(** C10: the worker number changes neither the result nor the effect of a
    trigger or of a completion report. *)
Theorem worker_number_unused (r : ptr) (w1 w2 : Z) (s : sched) :
  lf_sched_trigger_reaction r w1 s = lf_sched_trigger_reaction r w2 s ∧
  lf_sched_done_with_reaction w1 r s = lf_sched_done_with_reaction w2 r s.
Proof. split; reflexivity. Qed.

(** *** Tag advancement *)

Lemma same_control_refl (s : sched) : same_control s s.
Proof. unfold same_control. repeat split. Qed.

Lemma same_control_trans (s1 s2 s3 : sched) :
  same_control s1 s2 → same_control s2 s3 → same_control s1 s3.
Proof. unfold same_control. intros H1 H2. intuition congruence. Qed.

Lemma enqueue_only_refl (s : sched) : enqueue_only s s.
Proof. split; [apply same_control_refl|]. eauto. Qed.

Lemma enqueue_only_trans (s1 s2 s3 : sched) :
  enqueue_only s1 s2 → enqueue_only s2 s3 → enqueue_only s1 s3.
Proof.
  intros [Hc1 Hq1] [Hc2 Hq2]. split; [eapply same_control_trans; eauto|].
  intros q content Hq. destruct (Hq1 q content Hq) as (c2 & Hq' & Hle).
  destruct (Hq2 q c2 Hq') as (c3 & Hq'' & Hle'). exists c3. split; [done|lia].
Qed.

Lemma trigger_enqueue_only (r : ptr) (w : Z) (s s' : sched) :
  lf_sched_trigger_reaction r w s = Ret tt s' → enqueue_only s s'.
Proof. intros H. apply trigger_frame in H. split; apply H. Qed.

Lemma trigger_all_frame (rs : list ptr) (s s' : sched) :
  trigger_all rs s = Ret tt s' →
  enqueue_only s s' ∧
  count_next (trace s') = count_next (trace s) ∧
  count_tag_complete (trace s') = count_tag_complete (trace s).
Proof.
  revert s. induction rs as [|r rs IH]; intros s Heq; simpl in Heq.
  - injection Heq as <-. split; [apply enqueue_only_refl|done].
  - unfold bind in Heq.
    destruct (lf_sched_trigger_reaction r (-1) s) as [[] s1| | | |] eqn:Ht;
      try discriminate.
    apply IH in Heq as (He & Hn & Hc).
    pose proof (trigger_frame _ _ _ _ Ht) as (_ & Hn1 & Hc1 & _).
    split; [|split; congruence].
    eapply enqueue_only_trans; [eapply trigger_enqueue_only|]; eauto.
Qed.

Lemma next_locked_frame (s s' : sched) :
  _lf_next_locked s = Ret tt s' →
  enqueue_only (set_current_tag (current_tag s') s) s' ∧
  count_next (trace s') = S (count_next (trace s)) ∧
  count_tag_complete (trace s') = count_tag_complete (trace s).
Proof.
  unfold _lf_next_locked. run_code.
  destruct (next_events _) as [t rs]. simpl.
  intros Heq. apply trigger_all_frame in Heq as (He & Hn & Hc). simpl in *.
  assert (Ht : current_tag s' = t) by apply He.
  rewrite Ht. split; [|done].
  destruct He as [Hctl Hq]. split; [exact Hctl | exact Hq].
Qed.

Lemma should_stop_locked_eq (s : sched) :
  _lf_sched_should_stop_locked s =
    if _lf_logical_tag_completed s
    then Ret (compare_tags (current_tag s) (stop_tag s) >=? 0)
             (record (EvTagComplete (current_tag s)) s)
    else Ret false s.
Proof.
  unfold _lf_sched_should_stop_locked.
  destruct s as [rs qs now stp sem ss v eq nw ni tc nl tr]. run_code.
  destruct tc; [|done].
  simpl. destruct (_ >=? 0); reflexivity.
Qed.

Lemma advance_tag_locked_stop (s : sched) :
  stop_reached s = true →
  _lf_sched_advance_tag_locked s =
    Ret true (record (EvTagComplete (current_tag s)) s).
Proof.
  unfold stop_reached, _lf_sched_advance_tag_locked, bind.
  rewrite should_stop_locked_eq.
  destruct s as [rs qs now stp sem ss v eq nw ni tc nl tr]; simpl.
  destruct tc; simpl; [|discriminate].
  intros ->. reflexivity.
Qed.

Lemma advance_tag_locked_go (s : sched) :
  stop_reached s = false →
  _lf_sched_advance_tag_locked s =
    (run _lf_next_locked; ret false)
      (set_tag_completed true
         (if _lf_logical_tag_completed s
          then record (EvTagComplete (current_tag s)) s else s)).
Proof.
  unfold stop_reached, _lf_sched_advance_tag_locked, bind at 1.
  rewrite should_stop_locked_eq.
  destruct s as [rs qs now stp sem ss v eq nw ni tc nl tr]; simpl.
  destruct tc; simpl.
  - intros ->. reflexivity.
  - intros _. reflexivity.
Qed.

(** C4: [_lf_sched_advance_tag_locked] returns true exactly when the
    completed flag was set on entry and the current tag is not before the
    stop tag; then it has called [logical_tag_complete(current_tag)] and
    nothing else.  Otherwise it sets the flag, calls [_lf_next_locked] once
    and returns false.  [logical_tag_complete] is called once when the flag
    was set on entry and not at all otherwise. *)
Theorem _lf_sched_advance_tag_locked_spec (s : sched) :
  (stop_reached s = true →
   _lf_sched_advance_tag_locked s =
     Ret true (record (EvTagComplete (current_tag s)) s)) ∧
  (stop_reached s = false →
   _lf_sched_advance_tag_locked s =
     (run _lf_next_locked; ret false)
       (set_tag_completed true
          (if _lf_logical_tag_completed s
           then record (EvTagComplete (current_tag s)) s else s))) ∧
  (∀ b s', _lf_sched_advance_tag_locked s = Ret b s' →
     (b = true ↔ stop_reached s = true) ∧
     count_tag_complete (trace s') =
       (count_tag_complete (trace s) +
        if _lf_logical_tag_completed s then 1 else 0)%nat ∧
     count_next (trace s') = (count_next (trace s) + if b then 0 else 1)%nat ∧
     (b = false → _lf_logical_tag_completed s' = true)).
Proof.
  split; [apply advance_tag_locked_stop|]. split; [apply advance_tag_locked_go|].
  intros b s' Heq. destruct (stop_reached s) eqn:Hsr.
  - rewrite advance_tag_locked_stop in Heq by done. injection Heq as <- <-.
    unfold stop_reached in Hsr. apply andb_prop in Hsr as [-> _].
    simpl. split; [done|]. split; [lia|]. split; [lia|discriminate].
  - rewrite advance_tag_locked_go in Heq by done. unfold bind, ret in Heq.
    destruct (_lf_next_locked _) as [[] s1| | | |] eqn:Hnext; try discriminate.
    injection Heq as <- <-.
    apply next_locked_frame in Hnext as (He & Hn & Hc).
    split; [split; discriminate|].
    destruct He as [Hctl _]. unfold same_control in Hctl. simpl in Hctl.
    destruct (_lf_logical_tag_completed s); simpl in *.
    + rewrite Hc, Hn. split; [lia|]. split; [lia|]. intros _. apply Hctl.
    + rewrite Hc, Hn. split; [lia|]. split; [lia|]. intros _. apply Hctl.
Qed.

(** *** Machine integers *)

Lemma to_size_t_small (z : Z) : 0 ≤ z < 2 ^ SIZE_WIDTH → to_size_t z = z.
Proof. intros H. unfold to_size_t. apply Z.mod_small. exact H. Qed.

Lemma to_size_t_range (z : Z) : 0 ≤ to_size_t z < 2 ^ SIZE_WIDTH.
Proof. unfold to_size_t. apply Z.mod_pos_bound. reflexivity. Qed.

Lemma to_int_small (z : Z) : 0 ≤ z < 2 ^ 31 → to_int z = z.
Proof.
  intros H. unfold to_int. rewrite Z.mod_small by lia.
  destruct (z <? 2 ^ 31) eqn:Hlt; [reflexivity|]. apply Z.ltb_ge in Hlt. lia.
Qed.

Lemma MIN_spec (a b : Z) : MIN a b = Z.min a b.
Proof. unfold MIN. destruct (a <? b) eqn:H; [apply Z.ltb_lt in H | apply Z.ltb_ge in H]; lia. Qed.

Lemma pqueue_size_zero (content : pqueue) : pqueue_size content = 0 → content = [].
Proof. unfold pqueue_size. destruct content; [done|simpl; lia]. Qed.

(** *** Notification *)

Lemma notify_workers_run (s : sched) (q : loc) (content : pqueue) (c : Z) :
  executing_q s = Some q →
  pqueues s !! q = Some content →
  _lf_sched_semaphore s = Some c →
  0 ≤ _lf_sched_number_of_idle_workers s < 2 ^ SIZE_WIDTH →
  let idle := _lf_sched_number_of_idle_workers s in
  let w := MIN idle (pqueue_size content) in
  0 ≤ w ≤ idle ∧
  _lf_sched_notify_workers s =
    Ret tt (if 1 <? w
            then record (EvSemRelease (w - 1))
                   (set_semaphore (Some (c + (w - 1)))
                      (set_idle_workers (idle - w) s))
            else set_idle_workers (idle - w) s).
Proof.
  intros Hq Hc Hsem Hidle idle w.
  assert (Hw : 0 ≤ w ≤ idle).
  { unfold w. rewrite MIN_spec. unfold pqueue_size, idle. lia. }
  split; [exact Hw|].
  unfold _lf_sched_notify_workers.
  destruct s as [rs qs now stp sem ss v eq nw ni tc nl tr]. simpl in *. subst.
  run_code. rewrite Hc. simpl.
  subst idle. fold w. destruct (1 <? w) eqn:H1; simpl.
  - apply Z.ltb_lt in H1. rewrite !to_size_t_small by lia. reflexivity.
  - rewrite to_size_t_small by lia. reflexivity.
Qed.

(** C7: [_lf_sched_notify_workers] takes [w], the smaller of the idle count
    and the size of the executing queue, off the idle count, and releases
    [w - 1] permits when [w > 1] and none otherwise. *)
Theorem _lf_sched_notify_workers_spec (s : sched) (q : loc) (content : pqueue)
    (c : Z) :
  executing_q s = Some q →
  pqueues s !! q = Some content →
  _lf_sched_semaphore s = Some c →
  0 ≤ _lf_sched_number_of_idle_workers s < 2 ^ SIZE_WIDTH →
  let idle := _lf_sched_number_of_idle_workers s in
  let w := MIN idle (pqueue_size content) in
  0 ≤ w ≤ idle ∧
  _lf_sched_notify_workers s =
    Ret tt (if 1 <? w
            then record (EvSemRelease (w - 1))
                   (set_semaphore (Some (c + (w - 1)))
                      (set_idle_workers (idle - w) s))
            else set_idle_workers (idle - w) s).
Proof. apply notify_workers_run. Qed.

(** *** Distribution *)

Lemma slots_liveb_sound (s : sched) : slots_liveb s = true → slots_live s.
Proof.
  unfold slots_liveb, slots_live. rewrite forallb_forall. intros Hall i Hi.
  specialize (Hall (Z.to_nat i)).
  assert (Hin : In (Z.to_nat i) (seq 0 (S MAX_REACTION_LEVEL))).
  { apply in_seq. lia. }
  apply Hall in Hin. unfold slot_liveb in Hin.
  destruct (vector_of_reaction_qs s !! Z.to_nat i) as [[q|]|] eqn:Hv;
    try discriminate.
  destruct (pqueues s !! q) as [content|] eqn:Hq; [|discriminate].
  apply Z.ltb_lt in Hin. exists q, content. split; [split; done|exact Hin].
Qed.

Lemma distribute_loop_spec (d : nat) :
  ∀ (fuel : nat) (s : sched),
    Z.of_nat MAX_REACTION_LEVEL + 1 < 2 ^ SIZE_WIDTH →
    slots_live s →
    0 ≤ _lf_sched_next_reaction_level s →
    Z.of_nat d = Z.of_nat MAX_REACTION_LEVEL + 1 - _lf_sched_next_reaction_level s →
    (d < fuel)%nat →
    ∃ k s',
      distribute_loop fuel s = Ret k s' ∧
      s' = set_next_level (_lf_sched_next_reaction_level s')
             (set_executing_q (executing_q s') s) ∧
      0 ≤ k ∧
      (0 < k → scan_found s k s') ∧
      (k = 0 → scan_exhausted s s').
Proof.
  induction d as [|d IH]; intros fuel s Hmax Hlive Hnl Hd Hfuel;
    (destruct fuel as [|fuel]; [lia|]); simpl; run_code.
  - destruct (_ <=? _) eqn:Hle; [apply Z.leb_le in Hle; lia|].
    exists 0, s. split; [reflexivity|]. split; [destruct s; reflexivity|].
    split; [lia|]. split; [lia|]. intros _. split; [lia|]. intros j Hj. lia.
  - destruct (_ <=? _) eqn:Hle; [apply Z.leb_le in Hle | apply Z.leb_gt in Hle; lia].
    destruct (Hlive (_lf_sched_next_reaction_level s)) as (q & content & [Hv Hq] & Hsz);
      [lia|].
    rewrite Hv. simpl. rewrite Hq. simpl.
    rewrite (to_size_t_small (_ + 1)) by lia.
    destruct (pqueue_size content =? 0) eqn:Hz.
    + apply Z.eqb_eq in Hz. apply pqueue_size_zero in Hz. subst content.
      set (s1 := set_next_level (_lf_sched_next_reaction_level s + 1)
                   (set_executing_q (Some q) s)).
      destruct (IH fuel s1) as (k & s' & Heq & Hframe & Hk & Hfound & Hnone).
      * exact Hmax.
      * exact Hlive.
      * simpl. lia.
      * simpl. lia.
      * lia.
      * exists k, s'. split; [exact Heq|].
        split; [rewrite Hframe at 1; reflexivity|]. split; [exact Hk|].
        assert (Hempty : ∀ j, _lf_sched_next_reaction_level s ≤ j →
                  (_lf_sched_next_reaction_level s + 1 ≤ j → slot_empty s j) →
                  slot_empty s j).
        { intros j Hj Hrest.
          destruct (decide (j = _lf_sched_next_reaction_level s)) as [->|Hne].
          - exists q. split; done.
          - apply Hrest. lia. }
        split.
        -- intros Hpos.
           destruct (Hfound Hpos)
             as (lvl & q' & content' & Hrange & Hslot & Hksz & Hexec & Hnext & Hbelow & Hlev).
           simpl in Hrange.
           exists lvl, q', content'. split; [lia|]. split; [exact Hslot|].
           split; [exact Hksz|]. split; [exact Hexec|]. split; [exact Hnext|].
           split; [|exact Hlev].
           intros j Hj. apply Hempty; [lia|]. intros Hj'. apply (Hbelow j).
           simpl. lia.
        -- intros Hk0. destruct (Hnone Hk0) as [Hnext Hall]. split; [exact Hnext|].
           intros j Hj. apply Hempty; [lia|]. intros Hj'. apply (Hall j). simpl. lia.
    + apply Z.eqb_neq in Hz.
      assert (Hpos : 0 < pqueue_size content) by (unfold pqueue_size in *; lia).
      rewrite to_int_small by lia.
      eexists _, _. split; [reflexivity|]. split; [reflexivity|].
      split; [lia|]. split; [|lia]. intros _.
      exists (_lf_sched_next_reaction_level s), q, content. simpl.
      split; [lia|]. split; [split; done|]. split; [done|]. split; [done|].
      split; [done|]. split; [intros j Hj; lia|].
      intros Hsorted e He.
      rewrite (Hsorted (_lf_sched_next_reaction_level s) q content e);
        [lia|lia| |done].
      split; done.
Qed.

(** C5: from a state whose next level is within the array, the scan returns
    the size [k] of the first non-empty queue at or above that level, leaves
    [executing_q] on that queue and the next level one above it, with every
    queue it passed empty; or it returns 0 with every queue from the entry
    level up empty and the next level at [MAX_REACTION_LEVEL + 1].  Nothing
    but [executing_q] and the next level changes. *)
Theorem _lf_sched_distribute_ready_reactions_locked_spec (s : sched) :
  Z.of_nat MAX_REACTION_LEVEL + 1 < 2 ^ SIZE_WIDTH →
  0 ≤ _lf_sched_next_reaction_level s ≤ Z.of_nat MAX_REACTION_LEVEL →
  slots_live s →
  ∃ k s',
    _lf_sched_distribute_ready_reactions_locked s = Ret k s' ∧
    s' = set_next_level (_lf_sched_next_reaction_level s')
           (set_executing_q (executing_q s') s) ∧
    0 ≤ k ∧
    (0 < k → scan_found s k s') ∧
    (k = 0 → scan_exhausted s s').
Proof.
  intros Hmax Hnl Hlive.
  apply (distribute_loop_spec
           (Z.to_nat (Z.of_nat MAX_REACTION_LEVEL + 1 - _lf_sched_next_reaction_level s)));
    try done; lia.
Qed.

(** *** Asking for work *)

Lemma pqueue_peek_min (q : pqueue) (e : Z * loc) :
  pqueue_peek q = Some e → e ∈ q ∧ ∀ x, x ∈ q → e.1 ≤ x.1.
Proof.
  revert e. induction q as [|a q IH]; intros e; simpl; [discriminate|].
  destruct (pqueue_peek q) as [m|] eqn:Hm.
  - destruct (IH m eq_refl) as [Hin Hmin].
    destruct (a.1 <=? m.1) eqn:Hle; intros [= <-].
    + apply Z.leb_le in Hle. split; [left|].
      intros x Hx. apply elem_of_cons in Hx as [->|Hx]; [lia|].
      specialize (Hmin x Hx). lia.
    + apply Z.leb_gt in Hle. split; [right; exact Hin|].
      intros x Hx. apply elem_of_cons in Hx as [->|Hx]; [lia|].
      apply Hmin, Hx.
  - intros [= <-]. destruct q as [|b q]; [|simpl in Hm; destruct (pqueue_peek q);
      [destruct (_ <=? _)|]; discriminate].
    split; [left|]. intros x Hx. apply elem_of_cons in Hx as [->|Hx]; [lia|].
    inversion Hx.
Qed.

Lemma pqueue_peek_none (q : pqueue) : pqueue_peek q = None → q = [].
Proof.
  destruct q as [|a q]; [done|]. simpl.
  destruct (pqueue_peek q); [destruct (_ <=? _)|]; discriminate.
Qed.

Lemma get_ready_unfold (fuel : nat) (w : Z) (s : sched) :
  lf_sched_get_ready_reaction (S fuel) w s =
    if _lf_sched_should_stop s then Ret None s
    else
      match executing_q s with
      | Some q =>
          match pqueues s !! q with
          | Some content =>
              match pqueue_peek content with
              | Some e =>
                  Ret (Some e.2) (after_pop q (Some e.2) (pqueue_remove e content) s)
              | None =>
                  (run _lf_sched_wait_for_work fuel w;
                   lf_sched_get_ready_reaction fuel w)
                    (after_pop q None content s)
              end
          | None => Undef
          end
      | None => Undef
      end.
Proof.
  destruct s as [rs qs now stp sem ss v eq nw ni tc nl tr]. simpl.
  run_code. destruct ss; [reflexivity|]. simpl.
  destruct eq as [q|]; [|reflexivity]. simpl.
  destruct (qs !! q) as [content|] eqn:Hq; [|reflexivity].
  simpl. unfold pqueue_pop.
  destruct (pqueue_peek content) as [e|]; reflexivity.
Qed.

Lemma get_ready_leaves_loop (fuel : nat) (w : Z) :
  ∀ (s : sched) (r : ptr) (s' : sched),
    lf_sched_get_ready_reaction fuel w s = Ret r s' →
    ∃ s1, loop_head fuel w s s1 ∧
          match r with
          | None => _lf_sched_should_stop s1 = true ∧ s' = s1
          | Some l => popped_min s1 l s'
          end.
Proof.
  induction fuel as [|fuel IH]; intros s r s' Heq; [discriminate|].
  rewrite get_ready_unfold in Heq.
  destruct (_lf_sched_should_stop s) eqn:Hstop.
  { injection Heq as <- <-. exists s. split; [apply loop_head_entry|done]. }
  destruct (executing_q s) as [q|] eqn:Hexec; [|discriminate].
  destruct (pqueues s !! q) as [content|] eqn:Hq; [|discriminate].
  destruct (pqueue_peek content) as [[idx l]|] eqn:Hpeek.
  - injection Heq as <- <-. simpl. exists s. split; [apply loop_head_entry|].
    exists q, content, idx.
    destruct (pqueue_peek_min _ _ Hpeek) as [Hin Hmin].
    split; [done|]. split; [done|]. split; [done|]. split; [done|].
    split; [exact Hmin|reflexivity].
  - unfold bind in Heq.
    destruct (_lf_sched_wait_for_work fuel w _) as [[] s2| | | |] eqn:Hwait;
      try discriminate.
    apply IH in Heq as (s1 & Hhead & Hres). exists s1. split; [|exact Hres].
    apply (loop_head_turn fuel w s s2 s1); [|exact Hhead].
    exists q, content. done.
Qed.

(** A call with a loop head in [s1] goes on from there as a call on [s1]. *)
Lemma loop_head_resumes (fuel : nat) (w : Z) (s s1 : sched) :
  loop_head fuel w s s1 →
  ∃ k, (k ≤ fuel)%nat ∧
       lf_sched_get_ready_reaction fuel w s = lf_sched_get_ready_reaction k w s1.
Proof.
  induction 1 as [fuel w s | fuel w s s2 s1 Hturn _ (k & Hk & IH)].
  - exists fuel. done.
  - exists k. split; [lia|].
    destruct Hturn as (q & content & Hstop & Hexec & Hq & Hpeek & Hwait).
    rewrite get_ready_unfold, Hstop, Hexec, Hq, Hpeek.
    unfold bind. rewrite Hwait. exact IH.
Qed.

(** C8: [lf_sched_get_ready_reaction] returns NULL at once, with the state
    untouched, when it finds [_lf_sched_should_stop] set at the loop head;
    it returns the reaction of least index of a non-empty executing queue.
    Whenever the call returns, it does so from a loop head [s1] that it
    reached from its entry state through turns of its own loop: NULL with
    the flag set in [s1] and nothing changed since, a reaction by a pop of
    the executing queue of [s1] between lock and unlock of the mutex, the
    reaction having the least index in that queue.  From each of its loop
    heads the call goes on as a call on that state. *)
Theorem lf_sched_get_ready_reaction_spec (fuel : nat) (w : Z) (s : sched) :
  (_lf_sched_should_stop s = true →
   lf_sched_get_ready_reaction (S fuel) w s = Ret None s) ∧
  (∀ q content e,
     _lf_sched_should_stop s = false → executing_q s = Some q →
     pqueues s !! q = Some content → pqueue_peek content = Some e →
     lf_sched_get_ready_reaction (S fuel) w s =
       Ret (Some e.2) (after_pop q (Some e.2) (pqueue_remove e content) s)) ∧
  (∀ r s',
     lf_sched_get_ready_reaction fuel w s = Ret r s' →
     ∃ s1, loop_head fuel w s s1 ∧
           match r with
           | None => _lf_sched_should_stop s1 = true ∧ s' = s1
           | Some l => popped_min s1 l s'
           end) ∧
  (∀ s1, loop_head fuel w s s1 →
     ∃ k, (k ≤ fuel)%nat ∧
          lf_sched_get_ready_reaction fuel w s =
            lf_sched_get_ready_reaction k w s1).
Proof.
  split; [|split; [|split]].
  - intros Hstop. rewrite get_ready_unfold, Hstop. reflexivity.
  - intros q content e Hstop Hexec Hq Hpeek.
    rewrite get_ready_unfold, Hstop, Hexec, Hq, Hpeek. reflexivity.
  - apply get_ready_leaves_loop.
  - apply loop_head_resumes.
Qed.

(** *** Triggering again within a tag *)

Lemma done_swaps (w : Z) (r : loc) (rec : reaction) (s : sched) :
  reactions s !! r = Some rec → status rec = queued →
  lf_sched_done_with_reaction w (Some r) s = Ret tt (with_status r rec inactive s).
Proof.
  intros Hr Hs. unfold lf_sched_done_with_reaction, bind at 1.
  rewrite (cas_hit r rec) by done. reflexivity.
Qed.

(** What the first trigger of [r] leaves when the queue of its level was
    empty. *)
Lemma after_insert_fields (r : loc) (idx : Z) (q : loc) (content : pqueue)
    (s : sched) :
  let s1 := after_insert r idx q content s in
  reactions s1 = reactions s ∧
  pqueues s1 = <[q := pqueue_insert (idx, r) content]> (pqueues s) ∧
  same_control s s1 ∧
  count_next (trace s1) = count_next (trace s).
Proof.
  unfold after_insert. destruct (takes_lock idx s); simpl;
    (split; [done|]; split; [done|]; split; [unfold same_control; simpl; done|done]).
Qed.

(** C3: the deduplication is by status only.  From a state in which
    reaction [r] is inactive and the executing queue is the empty queue of
    its level: a trigger enqueues [r], a worker pops it and reports it done,
    and a second trigger, with no tag advance in between, is no no-op: it
    enqueues [r] again and the next call for work hands [r] out a second
    time at the same tag. *)
Theorem trigger_after_done_enqueues_again (r : loc) (rec : reaction)
    (w w' : Z) (fuel : nat) (s : sched) (q : loc) :
  reactions s !! r = Some rec →
  status rec = inactive →
  slot s (level_of (index rec)) q [] →
  executing_q s = Some q →
  _lf_sched_should_stop s = false →
  ∃ s1 s2 s3 s4 s5,
    lf_sched_trigger_reaction (Some r) w s = Ret tt s1 ∧
    lf_sched_get_ready_reaction (S fuel) w s1 = Ret (Some r) s2 ∧
    lf_sched_done_with_reaction w (Some r) s2 = Ret tt s3 ∧
    pqueues s3 !! q = Some [] ∧
    lf_sched_trigger_reaction (Some r) w' s3 = Ret tt s4 ∧
    pqueues s4 !! q = Some [(index rec, r)] ∧
    lf_sched_get_ready_reaction (S fuel) w s4 = Ret (Some r) s5 ∧
    current_tag s5 = current_tag s ∧
    count_next (trace s5) = count_next (trace s).
Proof.
  intros Hr Hs [Hv Hq] Hexec Hstop.
  assert (Hpop : ∀ s0 rec0,
    reactions s0 !! r = Some rec0 → status rec0 = inactive → index rec0 = index rec →
    vector_of_reaction_qs s0 = vector_of_reaction_qs s →
    pqueues s0 !! q = Some [] → executing_q s0 = Some q →
    _lf_sched_should_stop s0 = false →
    ∃ s1 s2,
      lf_sched_trigger_reaction (Some r) w' s0 = Ret tt s1 ∧
      (∀ w0, lf_sched_trigger_reaction (Some r) w0 s0 = Ret tt s1) ∧
      pqueues s1 !! q = Some [(index rec, r)] ∧
      lf_sched_get_ready_reaction (S fuel) w s1 = Ret (Some r) s2 ∧
      reactions s2 !! r = Some (mk_reaction (index rec) queued) ∧
      vector_of_reaction_qs s2 = vector_of_reaction_qs s0 ∧
      pqueues s2 !! q = Some [] ∧ executing_q s2 = Some q ∧
      _lf_sched_should_stop s2 = false ∧
      current_tag s2 = current_tag s0 ∧
      count_next (trace s2) = count_next (trace s0)).
  { intros s0 rec0 Hr0 Hs0 Hidx Hv0 Hq0 Hexec0 Hstop0.
    assert (Hslot0 : slot s0 (level_of (index rec0)) q []).
    { split; [rewrite Hv0, Hidx; exact Hv | exact Hq0]. }
    set (s1 := after_insert r (index rec0) q [] (with_status r rec0 queued s0)).
    destruct (after_insert_fields r (index rec0) q [] (with_status r rec0 queued s0))
      as (Hrs1 & Hqs1 & Hc1 & Hn1). fold s1 in Hrs1, Hqs1, Hc1, Hn1.
    destruct Hc1 as (Ht1 & _ & _ & Hst1 & Hv1 & He1 & _).
    assert (Hq1 : pqueues s1 !! q = Some [(index rec, r)]).
    { rewrite Hqs1, lookup_insert_eq, Hidx. reflexivity. }
    exists s1. eexists. split; [apply trigger_enqueues; done|].
    split; [intros w0; apply trigger_enqueues; done|].
    split; [exact Hq1|].
    split.
    { rewrite get_ready_unfold, Hst1, He1. simpl. rewrite Hstop0, Hexec0, Hq1.
      simpl. reflexivity. }
    unfold after_pop. simpl. rewrite Hrs1, Hv1, He1, Hst1, Ht1, Hn1. simpl.
    rewrite lookup_insert_eq, lookup_insert_eq.
    destruct (decide _); [|done]. rewrite Hidx. done. }
  destruct (Hpop s rec Hr Hs eq_refl eq_refl Hq Hexec Hstop)
    as (s1 & s2 & _ & Ht1 & _ & Hg1 & Hr2 & Hv2 & Hq2 & He2 & Hst2 & Htag2 & Hn2).
  set (s3 := with_status r (mk_reaction (index rec) queued) inactive s2).
  destruct (Hpop s3 (mk_reaction (index rec) inactive))
    as (s4 & s5 & Ht4 & _ & Hq4 & Hg4 & _ & _ & _ & _ & _ & Htag5 & Hn5);
    try done.
  { unfold s3, with_status. simpl. apply lookup_insert_eq. }
  exists s1, s2, s3, s4, s5.
  split; [apply Ht1|]. split; [exact Hg1|].
  split; [apply done_swaps; done|]. split; [exact Hq2|].
  split; [exact Ht4|]. split; [exact Hq4|]. split; [exact Hg4|].
  split; [rewrite Htag5; exact Htag2 | rewrite Hn5; exact Hn2].
Qed.

(** *** Counting the waiting workers *)

Lemma parked_AtAcquire (p : pc) : parked p = true → p = AtAcquire.
Proof. destruct p; simpl; congruence. Qed.

Lemma count_parked_bounds (ws : list pc) :
  0 ≤ count_parked ws ≤ Z.of_nat (length ws).
Proof.
  induction ws as [|p ws IH]; simpl; [lia|]. destruct (parked p); lia.
Qed.

Lemma count_parked_insert (ws : list pc) (w : nat) (p p' : pc) :
  ws !! w = Some p →
  count_parked (<[w := p']> ws) =
    count_parked ws - (if parked p then 1 else 0) + (if parked p' then 1 else 0).
Proof.
  revert w. induction ws as [|a ws IH]; intros w Hw; [discriminate|].
  destruct w as [|w]; simpl in *.
  - injection Hw as ->. lia.
  - rewrite (IH w Hw). lia.
Qed.

Lemma count_parked_full (ws : list pc) :
  count_parked ws = Z.of_nat (length ws) →
  ∀ w p, ws !! w = Some p → p = AtAcquire.
Proof.
  induction ws as [|a ws IH]; intros Hc w p Hw; [discriminate|].
  simpl in Hc. pose proof (count_parked_bounds ws) as Hb.
  destruct (parked a) eqn:Ha; [|lia].
  destruct w as [|w]; simpl in Hw.
  - injection Hw as <-. apply parked_AtAcquire, Ha.
  - apply (IH ltac:(lia) w p Hw).
Qed.

Lemma count_parked_all (ws : list pc) :
  (∀ w p, ws !! w = Some p → p = AtAcquire) →
  count_parked ws = Z.of_nat (length ws).
Proof.
  induction ws as [|a ws IH]; intros Hall; [reflexivity|].
  simpl. rewrite (Hall O a eq_refl). simpl.
  rewrite IH; [lia|]. intros w p Hw. apply (Hall (S w) p Hw).
Qed.

Lemma lookup_insert_pc (ws : list pc) (w w0 : nat) (p' p0 : pc) :
  <[w := p']> ws !! w0 = Some p0 →
  (w0 = w ∧ p0 = p') ∨ (w0 ≠ w ∧ ws !! w0 = Some p0).
Proof.
  intros H. apply list_lookup_insert_Some in H as [(-> & -> & _) | [Hne H]].
  - left. done.
  - right. split; [congruence|done].
Qed.

(** With all but worker [w] waiting, the waiting workers are one short. *)
Lemma count_parked_but_one (ws : list pc) (w : nat) (p p' : pc) :
  ws !! w = Some p → parked p' = false →
  (∀ w' p0, w' ≠ w → ws !! w' = Some p0 → p0 = AtAcquire) →
  count_parked (<[w := p']> ws) = Z.of_nat (length ws) - 1.
Proof.
  intros Hw Hp' Hall.
  assert (Hfull : count_parked (<[w := AtAcquire]> ws) = Z.of_nat (length ws)).
  { rewrite <- (length_insert ws w AtAcquire). apply count_parked_all.
    intros w0 p0 H0. apply lookup_insert_pc in H0 as [[_ ->] | [Hne H0]]; [done|].
    apply (Hall w0 p0 Hne H0). }
  rewrite (count_parked_insert ws w p AtAcquire Hw) in Hfull.
  rewrite (count_parked_insert ws w p p' Hw). rewrite Hp'. simpl in Hfull. lia.
Qed.

(** With the waiting workers one short of all and worker [w] not waiting,
    all the others wait. *)
Lemma count_parked_others (ws : list pc) (w : nat) (p : pc) :
  ws !! w = Some p → parked p = false →
  count_parked ws = Z.of_nat (length ws) - 1 →
  ∀ w' p0, w' ≠ w → ws !! w' = Some p0 → p0 = AtAcquire.
Proof.
  intros Hw Hp Hc w' p0 Hne H0.
  apply (count_parked_full (<[w := AtAcquire]> ws)) with w'.
  - rewrite (count_parked_insert ws w p AtAcquire Hw), Hp, length_insert.
    simpl. lia.
  - rewrite list_lookup_insert_ne by congruence. exact H0.
Qed.

(** *** What one step of a worker does to the counters *)

Lemma same_control_counters (s s' : sched) :
  same_control s s' → same_counters s s'.
Proof. unfold same_control, same_counters. intuition. Qed.

Lemma step_loop_head (w : Z) (s s' : sched) (p' : pc) :
  worker_step w AtLoopHead s = Ret p' s' →
  s' = s ∧ p' = if _lf_sched_should_stop s then Stopped else AtPop.
Proof. simpl. run_code. intros [= <- <-]. done. Qed.

Lemma step_pop (w : Z) (s s' : sched) (p' : pc) :
  worker_step w AtPop s = Ret p' s' →
  same_counters s s' ∧ parked p' = false ∧ elected p' = false.
Proof.
  destruct s as [rs qs now stp sem ss v eq nw ni tc nl tr]. simpl. run_code.
  destruct eq as [q|]; [|discriminate]. simpl.
  destruct (qs !! q) as [content|]; [|discriminate]. simpl.
  destruct (pqueue_pop content) as [[e|] rest]; simpl; intros [= <- <-];
    unfold same_counters; simpl; done.
Qed.

Lemma step_running (w : Z) (r : loc) (s s' : sched) (p' : pc) :
  worker_step w (Running r) s = Ret p' s' →
  same_counters s s' ∧ p' = AtLoopHead.
Proof.
  simpl. unfold bind at 1. unfold lf_sched_done_with_reaction, bind at 1.
  destruct (reactions s !! r) as [rec|] eqn:Hr.
  - destruct (decide (status rec = queued)) as [Hs|Hs].
    + rewrite (cas_hit r rec) by done. unfold ret. intros [= <- <-].
      unfold same_counters, with_status. simpl. done.
    + rewrite (cas_miss r rec) by done. run_code. rewrite Hr. discriminate.
  - rewrite cas_dangling by done. discriminate.
Qed.

Lemma step_wait (w : Z) (s s' : sched) (p' : pc) :
  worker_step w AtWait s = Ret p' s' →
  s' = set_idle_workers (to_size_t (_lf_sched_number_of_idle_workers s + 1)) s ∧
  p' = if _lf_sched_number_of_idle_workers s
          =? to_size_t (_lf_sched_number_of_workers s - 1)
       then AtAdvance else AtAcquire.
Proof. simpl. run_code. intros [= <- <-]. done. Qed.

Lemma step_acquire (w : Z) (s s' : sched) (p' : pc) :
  worker_step w AtAcquire s = Ret p' s' →
  ∃ c, _lf_sched_semaphore s = Some c ∧ 0 < c ∧
       s' = record EvSemAcquire (set_semaphore (Some (c - 1)) s) ∧
       p' = AtLoopHead.
Proof.
  simpl. run_code. destruct (_lf_sched_semaphore s) as [c|]; [|discriminate].
  destruct (0 <? c) eqn:Hc; [|discriminate]. apply Z.ltb_lt in Hc.
  intros [= <- <-]. exists c. done.
Qed.

Lemma signal_stop_frame (s s' : sched) :
  _lf_sched_signal_stop s = Ret tt s' →
  _lf_sched_should_stop s' = true ∧
  _lf_sched_number_of_idle_workers s' = _lf_sched_number_of_idle_workers s ∧
  _lf_sched_number_of_workers s' = _lf_sched_number_of_workers s.
Proof.
  unfold _lf_sched_signal_stop. run_code.
  destruct (_lf_sched_semaphore s); [|discriminate]. intros [= <-]. done.
Qed.

Lemma advance_tag_locked_frame (s s' : sched) (b : bool) :
  _lf_sched_advance_tag_locked s = Ret b s' → same_counters s s'.
Proof.
  intros Heq. destruct (stop_reached s) eqn:Hsr.
  - rewrite advance_tag_locked_stop in Heq by done. injection Heq as <- <-.
    unfold same_counters. done.
  - rewrite advance_tag_locked_go in Heq by done. unfold bind, ret in Heq.
    destruct (_lf_next_locked _) as [[] s1| | | |] eqn:Hnext; try discriminate.
    injection Heq as <- <-.
    apply next_locked_frame in Hnext as ([Hctl _] & _).
    apply same_control_counters in Hctl. unfold same_counters in *.
    destruct (_lf_logical_tag_completed s); simpl in *; exact Hctl.
Qed.

Lemma advance_if_drained_frame (s s' : sched) (b : bool) :
  advance_if_drained s = Ret b s' →
  _lf_sched_number_of_idle_workers s' = _lf_sched_number_of_idle_workers s ∧
  _lf_sched_number_of_workers s' = _lf_sched_number_of_workers s ∧
  if b then _lf_sched_should_stop s' = true else same_counters s s'.
Proof.
  unfold advance_if_drained. unfold bind at 1, get at 1.
  destruct (_ =? _).
  - unfold bind at 1, modify at 1. unfold bind at 1, lf_mutex_lock, emit, modify at 1.
    unfold bind at 1.
    destruct (_lf_sched_advance_tag_locked _) as [stop s1| | | |] eqn:Hadv;
      try discriminate.
    apply advance_tag_locked_frame in Hadv as (Hsem & Hstop & Hidle & Hn).
    simpl in *. destruct stop.
    + unfold bind at 1.
      destruct (_lf_sched_signal_stop s1) as [[] s2| | | |] eqn:Hsig;
        try discriminate.
      apply signal_stop_frame in Hsig as (Hstop' & Hidle' & Hn').
      run_code. intros [= <- <-]. simpl. split; [congruence|]. split; congruence.
    + run_code. intros [= <- <-]. simpl. split; [congruence|]. split; [congruence|].
      unfold same_counters. simpl. done.
  - unfold ret. intros [= <- <-]. split; [done|]. split; [done|].
    unfold same_counters. done.
Qed.

Lemma distribute_loop_frame (fuel : nat) :
  ∀ (s s' : sched) (k : Z),
    distribute_loop fuel s = Ret k s' →
    s' = set_next_level (_lf_sched_next_reaction_level s')
           (set_executing_q (executing_q s') s) ∧
    (k ≠ 0 → queue_ready s').
Proof.
  induction fuel as [|fuel IH]; intros s s' k; simpl; [discriminate|].
  unfold bind at 1, get at 1. destruct (_ <=? _).
  - unfold bind at 1, vector_read, bind at 1, get at 1.
    destruct (vector_of_reaction_qs s !! _) as [q|]; [|discriminate].
    unfold ret at 1. unfold bind at 1, modify at 1.
    unfold bind at 1, pqueue_size_at, bind at 1, get at 1. unfold bind at 1.
    destruct q as [q|]; [|discriminate]. unfold deref.
    destruct (pqueues (set_executing_q (Some q) s) !! q) as [content|] eqn:Hq;
      [|discriminate].
    unfold ret at 1, ret at 1.
    destruct (pqueue_size content =? 0) eqn:Hz.
    + unfold bind at 1, modify at 1. intros Heq.
      apply IH in Heq as [Hframe Hready]. split; [|exact Hready].
      rewrite Hframe at 1. destruct s; reflexivity.
    + unfold bind, modify, ret. intros [= <- <-]. split; [destruct s; reflexivity|].
      intros _. exists q, content. simpl. split; [done|]. split; [exact Hq|].
      intros ->. discriminate.
  - unfold ret. intros [= <- <-]. split; [destruct s; reflexivity|]. done.
Qed.

Lemma step_distribute (w : Z) (s s' : sched) (p' : pc) :
  worker_step w AtDistribute s = Ret p' s' →
  same_counters s s' ∧ ((p' = AtNotify ∧ queue_ready s') ∨ p' = AtAdvance).
Proof.
  simpl. unfold bind at 1, _lf_sched_distribute_ready_reactions_locked.
  destruct (distribute_loop _ s) as [k s1| | | |] eqn:Hd; try discriminate.
  apply distribute_loop_frame in Hd as [Hframe Hready].
  unfold ret. intros [= <- <-]. split.
  - rewrite Hframe. unfold same_counters. done.
  - destruct (0 <? k) eqn:Hk; [|right; done]. apply Z.ltb_lt in Hk.
    left. split; [done|]. apply Hready. lia.
Qed.

(** *** Initialisation *)

Lemma init_loop_frame (fuel : nat) :
  ∀ (i : Z) (s s' : sched),
    init_loop fuel i s = Ret tt s' → same_counters s s'.
Proof.
  induction fuel as [|fuel IH]; intros i s s'; simpl; [discriminate|].
  destruct (_ <=? _).
  - run_code. destruct (decide _); [|discriminate]. intros Heq.
    apply IH in Heq. unfold same_counters in *. simpl in Heq. exact Heq.
  - unfold ret. intros [= <-]. unfold same_counters. done.
Qed.

Lemma init_counters (n : Z) (s s' : sched) :
  lf_sched_init n s = Ret tt s' →
  _lf_sched_semaphore s' = Some 0 ∧
  _lf_sched_should_stop s' = false ∧
  _lf_sched_number_of_workers s' = n ∧
  _lf_sched_number_of_idle_workers s' = _lf_sched_number_of_idle_workers s.
Proof.
  unfold lf_sched_init.
  unfold bind at 1, lf_semaphore_new, modify at 1.
  unfold bind at 1, modify at 1. unfold bind at 1.
  destruct (init_loop _ 0 _) as [[] s1| | | |] eqn:Hloop; try discriminate.
  apply init_loop_frame in Hloop as (Hsem & Hstop & Hidle & Hn). simpl in *.
  run_code. destruct (vector_of_reaction_qs s1 !! _); [|discriminate].
  intros [= <-]. simpl. done.
Qed.

(** *** The invariant of the idle count *)

Lemma invariant_initial (n : nat) (rs : gmap loc reaction) (now stop : tag)
    (s0 : sched) :
  Z.of_nat n < 2 ^ SIZE_WIDTH →
  lf_sched_init (Z.of_nat n) (static_state rs now stop) = Ret tt s0 →
  idle_invariant (Z.of_nat n) (mk_system s0 (replicate n AtLoopHead)).
Proof.
  intros Hn Hinit. apply init_counters in Hinit as (Hsem & Hstop & Hnw & Hidle).
  simpl in Hidle. unfold idle_invariant. simpl.
  rewrite length_replicate. split; [done|]. split; [done|]. split; [done|].
  split; [lia|]. left. split; [done|]. split.
  - exists 0. split; [done|]. split; [lia|]. rewrite Hidle.
    clear. induction n as [|n IH]; simpl; [done|]. lia.
  - intros w p Hw. apply lookup_replicate in Hw as [-> _]. done.
Qed.

Lemma invariant_triggers (n : Z) (s s' : sched) (ws : list pc) :
  idle_invariant n (mk_system s ws) → enqueue_only s s' →
  idle_invariant n (mk_system s' ws).
Proof.
  unfold idle_invariant. simpl.
  intros (Hlen & Hn & Hnw & Hidle & Hphase) [Hctl Hq].
  unfold same_control in Hctl.
  destruct Hctl as (_ & _ & Hsem & Hstop & _ & Hexec & Hnw' & Hidle' & _ & _).
  split; [done|]. split; [done|]. split; [congruence|]. split; [congruence|].
  destruct Hphase as [(Hs & (c & Hc & Hc0 & Hsum) & Hel)
                     | [(Hs & Hc & Hi & w & p & Hw & Hp & Hready & Hothers)
                       | (Hs & Hi & Hall)]].
  - left. split; [congruence|]. split; [|done].
    exists c. split; [congruence|]. split; [done|congruence].
  - right. left. split; [congruence|]. split; [congruence|]. split; [congruence|].
    exists w, p. split; [done|]. split; [done|]. split; [|done].
    intros Hnot. destruct (Hready Hnot) as (q & content & He & Hcq & Hne).
    destruct (Hq q content Hcq) as (content' & Hcq' & Hle).
    exists q, content'. split; [congruence|]. split; [done|].
    intros ->. destruct content; [done|simpl in Hle; lia].
  - right. right. split; [congruence|]. split; [congruence|done].
Qed.

(** A worker that neither waits nor is elected nor can be met after the stop
    moves on to another such place without touching the counters. *)
Lemma invariant_passive (n : Z) (s s' : sched) (ws : list pc) (w : nat)
    (p p' : pc) :
  idle_invariant n (mk_system s ws) →
  ws !! w = Some p →
  parked p = false → elected p = false → winding_down p = false →
  same_counters s s' →
  parked p' = false → elected p' = false →
  idle_invariant n (mk_system s' (<[w := p']> ws)).
Proof.
  unfold idle_invariant. simpl.
  intros (Hlen & Hn & Hnw & Hidle & Hphase) Hw Hpark Helect Hwind
    (Hsem & Hstop & Hidle' & Hnw') Hpark' Helect'.
  rewrite length_insert.
  split; [done|]. split; [done|]. split; [congruence|]. split; [congruence|].
  destruct Hphase as [(Hs & (c & Hc & Hc0 & Hsum) & Hel)
                     | [(Hs & Hc & Hi & w0 & p0 & Hw0 & Hp0 & Hready & Hothers)
                       | (Hs & Hi & Hall)]].
  - left. split; [congruence|]. split.
    + exists c. split; [congruence|]. split; [done|].
      rewrite (count_parked_insert ws w p p' Hw), Hpark, Hpark'. lia.
    + intros w1 p1 H1. apply lookup_insert_pc in H1 as [[_ ->] | [_ H1]]; [done|].
      apply (Hel w1 p1 H1).
  - exfalso. destruct (decide (w = w0)) as [->|Hne].
    + rewrite Hw in Hw0. injection Hw0 as <-. congruence.
    + rewrite (Hothers w p Hne Hw) in Hpark. discriminate.
  - exfalso. rewrite (Hall w p Hw) in Hwind. discriminate.
Qed.

Ltac invariant_phases H :=
  let Hs := fresh "Hs" in let c := fresh "c" in let Hc := fresh "Hc" in
  let Hc0 := fresh "Hc0" in let Hsum := fresh "Hsum" in let Hel := fresh "Hel" in
  let Hi := fresh "Hi" in let w0 := fresh "w0" in let p0 := fresh "p0" in
  let Hw0 := fresh "Hw0" in let Hp0 := fresh "Hp0" in
  let Hready := fresh "Hready" in let Hothers := fresh "Hothers" in
  let Hall := fresh "Hall" in
  destruct H as [(Hs & (c & Hc & Hc0 & Hsum) & Hel)
                | [(Hs & Hc & Hi & w0 & p0 & Hw0 & Hp0 & Hready & Hothers)
                  | (Hs & Hi & Hall)]].

(** In the advancing phase the only worker that is not waiting is the
    elected one. *)
Lemma elected_unique (ws : list pc) (w w0 : nat) (p p0 : pc) :
  ws !! w = Some p → parked p = false →
  ws !! w0 = Some p0 →
  (∀ w' p', w' ≠ w0 → ws !! w' = Some p' → p' = AtAcquire) →
  w = w0 ∧ p = p0.
Proof.
  intros Hw Hp Hw0 Hothers. destruct (decide (w = w0)) as [->|Hne].
  - split; [done|congruence].
  - rewrite (Hothers w p Hne Hw) in Hp. discriminate.
Qed.

Lemma invariant_loop_head (n : Z) (s : sched) (ws : list pc) (w : nat) :
  idle_invariant n (mk_system s ws) →
  ws !! w = Some AtLoopHead →
  idle_invariant n
    (mk_system s (<[w := if _lf_sched_should_stop s then Stopped else AtPop]> ws)).
Proof.
  unfold idle_invariant. sched_unfold. simpl. intros (Hlen & Hn & Hnw & Hidle & Hphase) Hw.
  rewrite length_insert. repeat (split; [done|]).
  invariant_phases Hphase.
  - left. rewrite Hs. split; [done|]. split.
    + exists c. split; [done|]. split; [done|].
      rewrite (count_parked_insert ws w AtLoopHead AtPop Hw). simpl. lia.
    + intros w1 p1 H1. apply lookup_insert_pc in H1 as [[_ ->] | [_ H1]]; [done|].
      apply (Hel w1 p1 H1).
  - exfalso.
    destruct (elected_unique ws w w0 AtLoopHead p0 Hw eq_refl Hw0 Hothers) as [_ <-].
    discriminate.
  - right. right. rewrite Hs. split; [done|]. split; [done|].
    intros w1 p1 H1. apply lookup_insert_pc in H1 as [[_ ->] | [_ H1]]; [done|].
    apply (Hall w1 p1 H1).
Qed.

Lemma invariant_wait (n : Z) (s : sched) (ws : list pc) (w : nat) :
  idle_invariant n (mk_system s ws) →
  ws !! w = Some AtWait →
  idle_invariant n
    (mk_system
       (set_idle_workers (to_size_t (_lf_sched_number_of_idle_workers s + 1)) s)
       (<[w := if _lf_sched_number_of_idle_workers s
                  =? to_size_t (_lf_sched_number_of_workers s - 1)
               then AtAdvance else AtAcquire]> ws)).
Proof.
  unfold idle_invariant. sched_unfold. simpl. intros (Hlen & Hn & Hnw & Hidle & Hphase) Hw.
  rewrite length_insert.
  invariant_phases Hphase.
  - pose proof (count_parked_bounds (<[w := AtAcquire]> ws)) as Hb.
    rewrite (count_parked_insert ws w AtWait AtAcquire Hw), length_insert in Hb.
    simpl in Hb.
    rewrite (to_size_t_small (_ + 1)) by lia.
    rewrite Hnw, (to_size_t_small (n - 1)) by lia.
    split; [done|]. split; [done|]. split; [done|]. split; [lia|].
    destruct (_ =? _) eqn:Hlast.
    + apply Z.eqb_eq in Hlast. right. left. unfold advancing. simpl.
      split; [done|]. split; [rewrite Hc; f_equal; lia|]. split; [lia|].
      exists w, AtAdvance. split.
      { apply list_lookup_insert_eq. eapply lookup_lt_Some, Hw. }
      split; [done|]. split; [discriminate|].
      intros w' p' Hne H'. rewrite list_lookup_insert_ne in H' by congruence.
      apply (count_parked_others ws w AtWait Hw eq_refl ltac:(lia) w' p' Hne H').
    + left. unfold draining. simpl. split; [done|]. split.
      * exists c. split; [done|]. split; [done|].
        rewrite (count_parked_insert ws w AtWait AtAcquire Hw). simpl. lia.
      * intros w1 p1 H1. apply lookup_insert_pc in H1 as [[_ ->] | [_ H1]]; [done|].
        apply (Hel w1 p1 H1).
  - exfalso.
    destruct (elected_unique ws w w0 AtWait p0 Hw eq_refl Hw0 Hothers) as [_ <-].
    discriminate.
  - exfalso. specialize (Hall w AtWait Hw). discriminate.
Qed.

Lemma invariant_acquire (n : Z) (s : sched) (ws : list pc) (w : nat) (k : Z) :
  idle_invariant n (mk_system s ws) →
  ws !! w = Some AtAcquire →
  _lf_sched_semaphore s = Some k → 0 < k →
  idle_invariant n
    (mk_system (record EvSemAcquire (set_semaphore (Some (k - 1)) s))
       (<[w := AtLoopHead]> ws)).
Proof.
  unfold idle_invariant. sched_unfold. simpl. intros (Hlen & Hn & Hnw & Hidle & Hphase) Hw Hsem Hpos.
  rewrite length_insert. repeat (split; [done|]).
  invariant_phases Hphase.
  - left. split; [done|]. split.
    + exists (k - 1). split; [done|]. split; [lia|].
      rewrite (count_parked_insert ws w AtAcquire AtLoopHead Hw). simpl.
      rewrite Hsem in Hc. injection Hc as <-. lia.
    + intros w1 p1 H1. apply lookup_insert_pc in H1 as [[_ ->] | [_ H1]]; [done|].
      apply (Hel w1 p1 H1).
  - exfalso. rewrite Hsem in Hc. injection Hc as ->. lia.
  - right. right. split; [done|]. split; [done|].
    intros w1 p1 H1. apply lookup_insert_pc in H1 as [[_ ->] | [_ H1]]; [done|].
    apply (Hall w1 p1 H1).
Qed.

Lemma invariant_advance (n : Z) (s s' : sched) (ws : list pc) (w : nat)
    (b : bool) :
  idle_invariant n (mk_system s ws) →
  ws !! w = Some AtAdvance →
  advance_if_drained s = Ret b s' →
  idle_invariant n
    (mk_system s' (<[w := if b then AtLoopHead else AtDistribute]> ws)).
Proof.
  unfold idle_invariant. simpl. intros (Hlen & Hn & Hnw & Hidle & Hphase) Hw Hadv.
  apply advance_if_drained_frame in Hadv as (Hidle' & Hnw' & Hb).
  rewrite length_insert.
  split; [done|]. split; [done|]. split; [congruence|]. split; [congruence|].
  invariant_phases Hphase.
  - exfalso. specialize (Hel w AtAdvance Hw). discriminate.
  - destruct (elected_unique ws w w0 AtAdvance p0 Hw eq_refl Hw0 Hothers) as [<- <-].
    destruct b.
    + right. right. split; [done|]. split; [congruence|].
      intros w1 p1 H1. apply lookup_insert_pc in H1 as [[_ ->] | [Hne H1]]; [done|].
      rewrite (Hothers w1 p1 Hne H1). done.
    + right. left. destruct Hb as (Hsem & Hstop & _ & _).
      split; [congruence|]. split; [congruence|]. split; [congruence|].
      exists w, AtDistribute. split.
      { apply list_lookup_insert_eq. eapply lookup_lt_Some, Hw. }
      split; [done|]. split; [discriminate|].
      intros w' p' Hne H'. rewrite list_lookup_insert_ne in H' by congruence.
      apply (Hothers w' p' Hne H').
  - exfalso. specialize (Hall w AtAdvance Hw). discriminate.
Qed.

Lemma invariant_distribute (n : Z) (s s' : sched) (ws : list pc) (w : nat)
    (p' : pc) :
  idle_invariant n (mk_system s ws) →
  ws !! w = Some AtDistribute →
  same_counters s s' →
  (p' = AtNotify ∧ queue_ready s') ∨ p' = AtAdvance →
  idle_invariant n (mk_system s' (<[w := p']> ws)).
Proof.
  unfold idle_invariant. simpl.
  intros (Hlen & Hn & Hnw & Hidle & Hphase) Hw (Hsem & Hstop & Hidle' & Hnw') Hp'.
  rewrite length_insert.
  split; [done|]. split; [done|]. split; [congruence|]. split; [congruence|].
  invariant_phases Hphase.
  - exfalso. specialize (Hel w AtDistribute Hw). discriminate.
  - destruct (elected_unique ws w w0 AtDistribute p0 Hw eq_refl Hw0 Hothers) as [<- <-].
    right. left.
    split; [congruence|]. split; [congruence|]. split; [congruence|].
    exists w, p'. split.
    { apply list_lookup_insert_eq. eapply lookup_lt_Some, Hw. }
    split; [destruct Hp' as [[-> _] | ->]; done|].
    split; [intros ->; destruct Hp' as [[_ Hr] | Hr]; [exact Hr | discriminate]|].
    intros w' p1 Hne H'. rewrite list_lookup_insert_ne in H' by congruence.
    apply (Hothers w' p1 Hne H').
  - exfalso. specialize (Hall w AtDistribute Hw). discriminate.
Qed.

Lemma invariant_notify (n : Z) (s s' : sched) (ws : list pc) (w : nat) :
  idle_invariant n (mk_system s ws) →
  ws !! w = Some AtNotify →
  _lf_sched_notify_workers s = Ret tt s' →
  idle_invariant n (mk_system s' (<[w := AtLoopHead]> ws)).
Proof.
  unfold idle_invariant. simpl. intros (Hlen & Hn & Hnw & Hidle & Hphase) Hw Hrun.
  rewrite length_insert.
  invariant_phases Hphase.
  - exfalso. specialize (Hel w AtNotify Hw). discriminate.
  - destruct (elected_unique ws w w0 AtNotify p0 Hw eq_refl Hw0 Hothers) as [<- <-].
    destruct (Hready eq_refl) as (q & content & Hexec & Hq & Hne).
    destruct (notify_workers_run s q content 0 Hexec Hq Hc ltac:(lia)) as [Hw_range Heq].
    rewrite Heq in Hrun. clear Heq. injection Hrun as <-.
    assert (Hlen1 : 1 ≤ n).
    { apply lookup_lt_Some in Hw. lia. }
    assert (Hsz : 1 ≤ pqueue_size content).
    { unfold pqueue_size. destruct content; [done|simpl; lia]. }
    set (k := MIN (_lf_sched_number_of_idle_workers s) (pqueue_size content)) in *.
    assert (Hk : 1 ≤ k) by (unfold k; rewrite MIN_spec; lia).
    pose proof (count_parked_but_one ws w AtNotify AtLoopHead Hw eq_refl Hothers)
      as Hcount.
    assert (Hnone : ∀ w1 p1, <[w := AtLoopHead]> ws !! w1 = Some p1 →
                             elected p1 = false).
    { intros w1 p1 H1. apply lookup_insert_pc in H1 as [[_ ->] | [Hne1 H1]]; [done|].
      rewrite (Hothers w1 p1 Hne1 H1). done. }
    destruct (1 <? k) eqn:H1k; sched_unfold; simpl.
    + split; [done|]. split; [done|]. split; [done|]. split; [lia|].
      left. unfold draining. simpl. split; [done|]. split; [|exact Hnone].
      exists (0 + (k - 1)). split; [done|]. split; [lia|]. lia.
    + apply Z.ltb_ge in H1k.
      split; [done|]. split; [done|]. split; [done|]. split; [lia|].
      left. unfold draining. simpl. split; [done|]. split; [|exact Hnone].
      exists 0. split; [done|]. split; [lia|]. lia.
  - exfalso. specialize (Hall w AtNotify Hw). discriminate.
Qed.

Lemma invariant_step (n : Z) (sys sys' : system) :
  idle_invariant n sys → step sys sys' → idle_invariant n sys'.
Proof.
  intros Hinv Hstep. destruct Hstep as [w p p' s s' ws Hw Hrun | w r r' s s' ws Hw Hrun | r' s s' ws Hrun].
  - destruct p.
    + apply step_loop_head in Hrun as [-> ->]. apply invariant_loop_head; done.
    + apply step_pop in Hrun as (Hc & Hp & He).
      apply (invariant_passive n s s' ws w AtPop p'); done.
    + apply step_running in Hrun as (Hc & ->).
      apply (invariant_passive n s s' ws w (Running r) AtLoopHead); done.
    + apply step_wait in Hrun as [-> ->]. apply invariant_wait; done.
    + apply step_acquire in Hrun as (k & Hsem & Hk & -> & ->).
      apply invariant_acquire; done.
    + simpl in Hrun. unfold bind in Hrun.
      destruct (advance_if_drained s) as [b s1| | | |] eqn:Hadv; try discriminate.
      unfold ret in Hrun. injection Hrun as <- <-.
      apply (invariant_advance n s s1 ws w b); done.
    + apply step_distribute in Hrun as [Hc Hp'].
      apply (invariant_distribute n s s' ws w p'); done.
    + simpl in Hrun. unfold bind in Hrun.
      destruct (_lf_sched_notify_workers s) as [[] s1| | | |] eqn:Hnot;
        try discriminate.
      unfold ret in Hrun. injection Hrun as <- <-.
      apply (invariant_notify n s s1 ws w); done.
    + discriminate.
  - apply (invariant_triggers n s s' ws Hinv).
    eapply trigger_enqueue_only, Hrun.
  - apply (invariant_triggers n s s' ws Hinv).
    eapply trigger_enqueue_only, Hrun.
Qed.

Lemma invariant_bounds (n : Z) (sys : system) :
  idle_invariant n sys →
  0 ≤ _lf_sched_number_of_idle_workers (shared sys)
    ≤ _lf_sched_number_of_workers (shared sys).
Proof.
  intros (Hlen & Hn & Hnw & Hidle & Hphase). split; [exact Hidle|].
  rewrite Hnw. invariant_phases Hphase.
  - pose proof (count_parked_bounds (workers sys)). lia.
  - lia.
  - lia.
Qed.

(** C9: in every state that [n] workers can reach after [lf_sched_init(n)],
    the idle count lies between 0 and the number of workers; and a call of
    [_lf_sched_notify_workers] never takes more off the idle count than the
    count holds. *)
Theorem idle_workers_bounded (n : nat) (rs : gmap loc reaction) (now stop : tag)
    (sys : system) :
  Z.of_nat n < 2 ^ SIZE_WIDTH →
  reachable n rs now stop sys →
  0 ≤ _lf_sched_number_of_idle_workers (shared sys)
    ≤ _lf_sched_number_of_workers (shared sys) ∧
  ∀ s', 0 ≤ _lf_sched_number_of_idle_workers (shared sys) →
        _lf_sched_notify_workers (shared sys) = Ret tt s' →
        0 ≤ _lf_sched_number_of_idle_workers s'
          ≤ _lf_sched_number_of_idle_workers (shared sys).
Proof.
  intros Hn (s0 & Hinit & Hreach).
  assert (Hinv : idle_invariant (Z.of_nat n) sys).
  { pose proof (invariant_initial n rs now stop s0 Hn Hinit) as Hinv0.
    remember (mk_system s0 (replicate n AtLoopHead)) as sys0 eqn:E.
    clear E Hinit. induction Hreach as [x | x y z Hstep _ IH]; [exact Hinv0|].
    apply IH. apply (invariant_step _ x); done. }
  pose proof (invariant_bounds _ _ Hinv) as Hb. split; [exact Hb|].
  intros s' Hidle Hrun.
  destruct Hinv as (_ & _ & Hnw & _ & _).
  revert Hrun. unfold _lf_sched_notify_workers. run_code.
  destruct (executing_q (shared sys)) as [q|]; [|discriminate]. simpl.
  destruct (pqueues (shared sys) !! q) as [content|]; [|discriminate]. simpl.
  set (idle := _lf_sched_number_of_idle_workers (shared sys)) in *.
  set (k := MIN idle (pqueue_size content)) in *.
  assert (Hk : 0 ≤ k ≤ idle).
  { unfold k. rewrite MIN_spec. unfold pqueue_size. lia. }
  assert (Hsmall : to_size_t (idle - k) = idle - k).
  { apply to_size_t_small. lia. }
  destruct (1 <? k); simpl.
  - destruct (_lf_sched_semaphore (shared sys)); [|discriminate].
    intros [= <-]. simpl. lia.
  - intros [= <-]. simpl. lia.
Qed.

(** *** Teardown *)

(** [lf_sched_free] frees the queue [executing_q] points to, and no other,
    and destroys the semaphore. *)
Lemma lf_sched_free_run (s : sched) (q : loc) (content : pqueue) (c : Z) :
  executing_q s = Some q →
  pqueues s !! q = Some content →
  _lf_sched_semaphore s = Some c →
  lf_sched_free s =
    Ret tt (record EvSemDestroy
              (set_semaphore None
                 (record (EvPqueueFree q) (set_pqueues (delete q) s)))).
Proof.
  intros Hexec Hq Hsem. unfold lf_sched_free.
  destruct s as [rs qs now stp sem ss v eq nw ni tc nl tr]. simpl in *. subst.
  run_code. rewrite Hq. reflexivity.
Qed.

(** ** Further properties of the scheduler *)

(** *** The shape of the queues is kept *)

Lemma level_of_nonneg (idx : Z) : 0 ≤ level_of idx.
Proof. unfold level_of. apply to_size_t_range. Qed.

Lemma same_store_well_formed (s s' : sched) :
  same_store s s' → well_formed s → well_formed s'.
Proof.
  intros (Hr & Hq & Hv) (Halloc & Hlev & Hcons).
  unfold well_formed, slots_allocated, levels_in_place, queues_consistent, slot.
  rewrite Hr, Hq, Hv. done.
Qed.

(** A reaction whose status is not [queued] is in no queue. *)
Lemma not_queued_not_in_queue (s : sched) (r : loc) (rec : reaction)
    (q : loc) (content : pqueue) :
  queues_consistent s →
  reactions s !! r = Some rec → status rec ≠ queued →
  pqueues s !! q = Some content →
  r ∉ content.*2.
Proof.
  intros Hcons Hr Hs Hq Hin.
  apply list_elem_of_fmap in Hin as ([idx r'] & -> & Hin). simpl in *.
  destruct (Hcons q content Hq) as [_ Hent].
  destruct (Hent idx r' Hin) as (rec' & Hr' & Hs' & _). congruence.
Qed.

Lemma after_insert_store (s : sched) (r : loc) (rec : reaction) (q : loc)
    (content : pqueue) :
  reactions (after_insert r (index rec) q content (with_status r rec queued s))
    = <[r := mk_reaction (index rec) queued]> (reactions s) ∧
  pqueues (after_insert r (index rec) q content (with_status r rec queued s))
    = <[q := pqueue_insert (index rec, r) content]> (pqueues s) ∧
  vector_of_reaction_qs
    (after_insert r (index rec) q content (with_status r rec queued s))
    = vector_of_reaction_qs s.
Proof. unfold after_insert. destruct (takes_lock _ _); done. Qed.

Lemma after_insert_consistent (s : sched) (r : loc) (rec : reaction)
    (q : loc) (content : pqueue) :
  queues_consistent s →
  reactions s !! r = Some rec → status rec = inactive →
  pqueues s !! q = Some content →
  queues_consistent
    (after_insert r (index rec) q content (with_status r rec queued s)).
Proof.
  intros Hcons Hr Hs Hq.
  destruct (after_insert_store s r rec q content) as (Hr' & Hq' & _).
  assert (Hfresh : ∀ q0 c0, pqueues s !! q0 = Some c0 → r ∉ c0.*2).
  { intros q0 c0 H0.
    apply (not_queued_not_in_queue s r rec q0 c0); try done. congruence. }
  intros q0 c0 Hq0. rewrite Hq' in Hq0. rewrite Hr'.
  assert (Hold : ∀ c, pqueues s !! q0 = Some c →
    ∀ idx r0, (idx, r0) ∈ c →
      ∃ rec0, <[r := mk_reaction (index rec) queued]> (reactions s) !! r0
                = Some rec0 ∧ status rec0 = queued ∧ index rec0 = idx).
  { intros c Hc idx r0 Hin.
    destruct (Hcons q0 c Hc) as [_ Hent].
    destruct (Hent idx r0 Hin) as (rec0 & Hr0 & Hs0 & Hi0).
    destruct (decide (r = r0)) as [<-|Hne].
    - congruence.
    - exists rec0. rewrite lookup_insert_ne by done. done. }
  destruct (decide (q = q0)) as [<-|Hne].
  + rewrite lookup_insert_eq in Hq0. injection Hq0 as <-.
    destruct (Hcons q content Hq) as [Hnd _]. split.
    * unfold pqueue_insert. rewrite fmap_app. simpl.
      apply NoDup_app. split; [done|]. split; [|apply NoDup_singleton].
      intros x Hx Hx'. apply list_elem_of_singleton in Hx' as ->.
      apply (Hfresh q content Hq Hx).
    * intros idx r0 Hin. unfold pqueue_insert in Hin.
      apply elem_of_app in Hin as [Hin|Hin]; [apply (Hold content Hq idx r0 Hin)|].
      apply list_elem_of_singleton in Hin as [= -> ->].
      eexists. rewrite lookup_insert_eq. done.
  + rewrite lookup_insert_ne in Hq0 by done.
    destruct (Hcons q0 c0 Hq0) as [Hnd _]. split; [done|].
    apply (Hold c0 Hq0).
Qed.

Lemma after_insert_well_formed (s : sched) (r : loc) (rec : reaction)
    (q : loc) (content : pqueue) :
  well_formed s →
  reactions s !! r = Some rec → status rec = inactive →
  slot s (level_of (index rec)) q content →
  well_formed (after_insert r (index rec) q content (with_status r rec queued s)).
Proof.
  intros (Halloc & Hlev & Hcons) Hr Hs [Hv Hq].
  destruct (after_insert_store s r rec q content) as (Hr' & Hq' & Hv').
  split; [|split].
  - destruct Halloc as (ls & Hls & Hlen & Hnd & Hlive).
    exists ls. rewrite Hv', Hq'. split; [done|]. split; [done|]. split; [done|].
    intros l Hl. destruct (decide (q = l)) as [->|Hne].
    + rewrite lookup_insert_eq. eauto.
    + rewrite lookup_insert_ne by done. apply Hlive, Hl.
  - intros i q0 c0 e Hi [Hv0 Hq0] He. rewrite Hv' in Hv0. rewrite Hq' in Hq0.
    destruct (decide (q = q0)) as [<-|Hne].
    + rewrite lookup_insert_eq in Hq0. injection Hq0 as <-.
      unfold pqueue_insert in He. apply elem_of_app in He as [He|He].
      * apply (Hlev i q content e Hi); [split; done|done].
      * apply list_elem_of_singleton in He as ->. simpl.
        destruct Halloc as (ls & Hls & _ & Hnd & _).
        rewrite Hls in Hv, Hv0. rewrite list_lookup_fmap in Hv, Hv0.
        destruct (ls !! Z.to_nat (level_of (index rec))) as [l1|] eqn:H1;
          [|discriminate].
        destruct (ls !! Z.to_nat i) as [l2|] eqn:H2; [|discriminate].
        simpl in Hv, Hv0. injection Hv as ->. injection Hv0 as ->.
        pose proof (NoDup_lookup ls _ _ q Hnd H1 H2) as Heq.
        pose proof (level_of_nonneg (index rec)). unfold level_of in *. lia.
    + rewrite lookup_insert_ne in Hq0 by done.
      apply (Hlev i q0 c0 e Hi); [split; done|done].
  - apply after_insert_consistent; done.
Qed.

(** *** Reactions held by workers *)

Lemma same_store_exclusive (held : loc → Prop) (s s' : sched) :
  same_store s s' → exclusive held s → exclusive held s'.
Proof.
  intros (Hr & Hq & _). unfold exclusive, queues_consistent, in_queue.
  rewrite Hr, Hq. done.
Qed.

Lemma after_insert_exclusive (held : loc → Prop) (s : sched) (r : loc)
    (rec : reaction) (q : loc) (content : pqueue) :
  exclusive held s →
  reactions s !! r = Some rec → status rec = inactive →
  pqueues s !! q = Some content →
  exclusive held (after_insert r (index rec) q content (with_status r rec queued s)).
Proof.
  intros (Hcons & Huniq & Hheld) Hr Hs Hq.
  destruct (after_insert_store s r rec q content) as (Hr' & Hq' & _).
  assert (Hfresh : ∀ q0, ¬ in_queue s r q0).
  { intros q0 (c0 & H0 & Hin).
    apply (not_queued_not_in_queue s r rec q0 c0); try done. congruence. }
  assert (Hin' : ∀ r0 q0,
    in_queue (after_insert r (index rec) q content (with_status r rec queued s)) r0 q0 →
    in_queue s r0 q0 ∨ (r0 = r ∧ q0 = q)).
  { intros r0 q0 (c0 & H0 & Hin). rewrite Hq' in H0.
    destruct (decide (q = q0)) as [<-|Hne].
    - rewrite lookup_insert_eq in H0. injection H0 as <-.
      unfold pqueue_insert in Hin. rewrite fmap_app in Hin.
      apply elem_of_app in Hin as [Hin|Hin].
      + left. exists content. done.
      + right. simpl in Hin. apply list_elem_of_singleton in Hin. done.
    - rewrite lookup_insert_ne in H0 by done. left. exists c0. done. }
  split; [apply after_insert_consistent; done|]. split.
  - intros r0 q1 q2 H1 H2.
    apply Hin' in H1 as [H1|[-> ->]]; apply Hin' in H2 as [H2|[E2 ->]].
    + apply (Huniq r0 q1 q2 H1 H2).
    + subst r0. destruct (Hfresh q1 H1).
    + destruct (Hfresh q2 H2).
    + done.
  - intros r0 Hr0. destruct (Hheld r0 Hr0) as [(rec0 & Hrec0 & Hs0) Hnot].
    assert (Hne : r ≠ r0) by (intros ->; congruence).
    split.
    + exists rec0. rewrite Hr', lookup_insert_ne by done. done.
    + intros q0 Hin. apply Hin' in Hin as [Hin|[-> _]]; [apply (Hnot q0 Hin)|done].
Qed.

Lemma kept_refl (s : sched) : kept s s.
Proof. split; [|split]; done. Qed.

Lemma kept_trans (s1 s2 s3 : sched) : kept s1 s2 → kept s2 s3 → kept s1 s3.
Proof.
  intros (Hw1 & He1 & Hl1) (Hw2 & He2 & Hl2). split; [auto|]. split; [auto|].
  intros m. rewrite Hl2. apply Hl1.
Qed.

Lemma kept_quiet (s s' : sched) :
  same_store s s' →
  (∀ m, lock_depth m (trace s') = lock_depth m (trace s)) →
  kept s s'.
Proof.
  intros Hstore Hl. split; [apply same_store_well_formed, Hstore|].
  split; [|exact Hl]. intros held. apply same_store_exclusive, Hstore.
Qed.

Lemma trigger_kept (r : ptr) (w : Z) (s s' : sched) :
  lf_sched_trigger_reaction r w s = Ret tt s' → kept s s'.
Proof.
  intros Heq. destruct r as [r|]; [|injection Heq as <-; apply kept_refl].
  destruct (trigger_cases r w s)
    as [Hu | [(rec & Hr & Hs & Heq') | (rec & q & content & Hr & Hs & Hslot & Heq')]];
    rewrite Heq in *; [discriminate | injection Heq' as ->; apply kept_refl |].
  injection Heq' as ->. split; [|split].
  - intros Hwf. apply after_insert_well_formed; done.
  - intros held Hex. apply after_insert_exclusive; [done|done|done|apply Hslot].
  - intros m. unfold after_insert, with_status.
    destruct (takes_lock _ _); simpl; [|done].
    destruct (decide (exec_q_mutex = m)); lia.
Qed.

Lemma trigger_all_kept (rs : list ptr) (s s' : sched) :
  trigger_all rs s = Ret tt s' → kept s s'.
Proof.
  revert s. induction rs as [|r rs IH]; intros s Heq; simpl in Heq.
  - injection Heq as <-. apply kept_refl.
  - unfold bind in Heq.
    destruct (lf_sched_trigger_reaction r (-1) s) as [[] s1| | | |] eqn:Ht;
      try discriminate.
    eapply kept_trans; [eapply trigger_kept, Ht | apply IH, Heq].
Qed.

Lemma next_locked_kept (s s' : sched) :
  _lf_next_locked s = Ret tt s' → kept s s'.
Proof.
  unfold _lf_next_locked. run_code.
  destruct (next_events _) as [t rs]. simpl. intros Heq.
  apply trigger_all_kept in Heq. eapply kept_trans; [|exact Heq].
  apply kept_quiet; [split; done|]. intros m. done.
Qed.

(** The three ways the head of the advancer's loop can end. *)
Lemma advance_if_drained_cases (s s' : sched) (b : bool) :
  advance_if_drained s = Ret b s' →
  (b = false ∧ s' = s) ∨
  (b = true ∧ _lf_sched_should_stop s' = true ∧
   ∃ s1, kept (record (EvLock global_mutex) s) s1 ∧
         s' = record (EvUnlock global_mutex) s1) ∨
  (b = false ∧
   ∃ s1, kept (record (EvLock global_mutex) s) s1 ∧
         s' = record (EvUnlock global_mutex) s1).
Proof.
  unfold advance_if_drained. unfold bind at 1, get at 1.
  destruct (_ =? _); [|unfold ret; intros [= <- <-]; left; done].
  unfold bind at 1, modify at 1. unfold bind at 1, lf_mutex_lock, emit, modify at 1.
  unfold bind at 1.
  set (s0 := record (EvLock global_mutex) (set_next_level 0 s)).
  assert (H0 : kept (record (EvLock global_mutex) s) s0).
  { apply kept_quiet; [split; done|]. intros m. done. }
  destruct (_lf_sched_advance_tag_locked s0) as [stop s1| | | |] eqn:Hadv;
    try discriminate.
  assert (H1 : kept s0 s1).
  { destruct (stop_reached s0) eqn:Hsr.
    - rewrite advance_tag_locked_stop in Hadv by done. injection Hadv as <- <-.
      apply kept_quiet; [split; done|]. intros m. done.
    - rewrite advance_tag_locked_go in Hadv by done. unfold bind, ret in Hadv.
      destruct (_lf_next_locked _) as [[] s2| | | |] eqn:Hnext; try discriminate.
      injection Hadv as <- <-. apply next_locked_kept in Hnext.
      eapply kept_trans; [|exact Hnext].
      apply kept_quiet; [destruct (_lf_logical_tag_completed s0); split; done|].
      intros m. destruct (_lf_logical_tag_completed s0); done. }
  destruct stop.
  - unfold bind at 1.
    destruct (_lf_sched_signal_stop s1) as [[] s2| | | |] eqn:Hsig;
      try discriminate.
    revert Hsig. unfold _lf_sched_signal_stop. run_code.
    destruct (_lf_sched_semaphore s1); [|discriminate]. intros [= <-].
    intros [= <- <-]. right. left. split; [done|]. split; [done|].
    exists (record (EvSemRelease (to_size_t (_lf_sched_number_of_workers s1 - 1)))
              (set_semaphore
                 (Some (z + to_size_t (_lf_sched_number_of_workers s1 - 1)))
                 (set_should_stop true s1))).
    split; [|reflexivity].
    eapply kept_trans; [exact H0|]. eapply kept_trans; [exact H1|].
    apply kept_quiet; [split; done|]. intros m. done.
  - run_code. intros [= <- <-]. right. right. split; [done|].
    exists s1. split; [|reflexivity]. eapply kept_trans; [exact H0|exact H1].
Qed.

Lemma unlock_after_lock_kept (s s1 : sched) (m : mutex_id) :
  kept (record (EvLock m) s) s1 → kept s (record (EvUnlock m) s1).
Proof.
  intros (Hwf & Hex & Hl). split; [|split].
  - intros H. apply (same_store_well_formed s1); [split; done|].
    apply Hwf. apply (same_store_well_formed s); [split; done|exact H].
  - intros held H. apply (same_store_exclusive held s1); [split; done|].
    apply Hex. apply (same_store_exclusive held s); [split; done|exact H].
  - intros m'. simpl. rewrite Hl. simpl. destruct (decide (m = m')); lia.
Qed.

Lemma advance_if_drained_kept (s s' : sched) (b : bool) :
  advance_if_drained s = Ret b s' → kept s s'.
Proof.
  intros Heq. apply advance_if_drained_cases in Heq
    as [[_ ->] | [(_ & _ & s1 & Hk & ->) | (_ & s1 & Hk & ->)]].
  - apply kept_refl.
  - apply unlock_after_lock_kept, Hk.
  - apply unlock_after_lock_kept, Hk.
Qed.

Lemma distribute_kept (s s' : sched) (k : Z) :
  _lf_sched_distribute_ready_reactions_locked s = Ret k s' → kept s s'.
Proof.
  intros Heq. apply distribute_loop_frame in Heq as [-> _].
  apply kept_quiet; [split; done|]. intros m. done.
Qed.

Lemma notify_frame (s s' : sched) :
  _lf_sched_notify_workers s = Ret tt s' →
  same_store s s' ∧ executing_q s' = executing_q s ∧
  _lf_sched_should_stop s' = _lf_sched_should_stop s ∧
  _lf_sched_number_of_workers s' = _lf_sched_number_of_workers s ∧
  ∀ m, lock_depth m (trace s') = lock_depth m (trace s).
Proof.
  unfold _lf_sched_notify_workers. run_code.
  destruct (executing_q s) as [q|] eqn:Hexec; [|discriminate]. simpl.
  destruct (pqueues s !! q) as [content|]; [|discriminate]. simpl.
  destruct (1 <? _); simpl.
  - destruct (_lf_sched_semaphore s); [|discriminate]. intros [= <-]. simpl.
    repeat split; done.
  - intros [= <-]. simpl. repeat split; done.
Qed.

Lemma try_advance_kept (fuel : nat) :
  ∀ s s', _lf_sched_try_advance_tag_and_distribute fuel s = Ret tt s' →
          kept s s'.
Proof.
  induction fuel as [|fuel IH]; intros s s'; simpl; [discriminate|].
  unfold bind at 1.
  destruct (advance_if_drained s) as [stop s1| | | |] eqn:Hadv; try discriminate.
  apply advance_if_drained_kept in Hadv. destruct stop.
  - unfold ret. intros [= <-]. exact Hadv.
  - unfold bind at 1.
    destruct (_lf_sched_distribute_ready_reactions_locked s1) as [k s2| | | |]
      eqn:Hdist; try discriminate.
    apply distribute_kept in Hdist. destruct (0 <? k).
    + intros Hnot. apply notify_frame in Hnot as (Hstore & _ & _ & _ & Hl).
      eapply kept_trans; [exact Hadv|]. eapply kept_trans; [exact Hdist|].
      apply kept_quiet; done.
    + intros Hrec. apply IH in Hrec.
      eapply kept_trans; [exact Hadv|]. eapply kept_trans; [exact Hdist|exact Hrec].
Qed.

Lemma try_advance_outcome (fuel : nat) :
  ∀ s s', _lf_sched_try_advance_tag_and_distribute fuel s = Ret tt s' →
          _lf_sched_should_stop s' = true ∨
          (queue_ready s' ∧
           _lf_sched_should_stop s' = _lf_sched_should_stop s).
Proof.
  induction fuel as [|fuel IH]; intros s s'; simpl; [discriminate|].
  unfold bind at 1.
  destruct (advance_if_drained s) as [stop s1| | | |] eqn:Hadv; try discriminate.
  apply advance_if_drained_frame in Hadv as (_ & _ & Hb). destruct stop.
  - unfold ret. intros [= <-]. left. exact Hb.
  - destruct Hb as (_ & Hstop1 & _ & _). unfold bind at 1.
    destruct (_lf_sched_distribute_ready_reactions_locked s1) as [k s2| | | |]
      eqn:Hdist; try discriminate.
    apply distribute_loop_frame in Hdist as [Hframe Hready].
    assert (Hstop2 : _lf_sched_should_stop s2 = _lf_sched_should_stop s).
    { rewrite Hframe. simpl. exact Hstop1. }
    destruct (0 <? k) eqn:Hk.
    + apply Z.ltb_lt in Hk. intros Hnot.
      apply notify_frame in Hnot as ((_ & Hq & _) & Hexec & Hstop3 & _ & _).
      right. split; [|congruence].
      destruct (Hready ltac:(lia)) as (q & content & He & Hc & Hne).
      exists q, content. rewrite Hexec, Hq. done.
    + intros Hrec. apply IH in Hrec as [Hs | [Hr Hs]]; [left; done|].
      right. split; [done|congruence].
Qed.

(** *** What initialisation builds *)

Lemma init_loop_run (d : nat) :
  ∀ (k fuel : nat) (s : sched),
    (d + k = S MAX_REACTION_LEVEL)%nat → (d < fuel)%nat →
    Z.of_nat MAX_REACTION_LEVEL + 1 < 2 ^ SIZE_WIDTH →
    initialised_up_to k s →
    ∃ s', init_loop fuel (Z.of_nat k) s = Ret tt s' ∧
          initialised_up_to (S MAX_REACTION_LEVEL) s' ∧
          s' = set_vector (λ _, vector_of_reaction_qs s')
                 (set_pqueues (λ _, pqueues s') s).
Proof.
  induction d as [|d IH]; intros k fuel s Hk Hfuel Hmax Hinit;
    (destruct fuel as [|fuel]; [lia|]); simpl.
  - destruct (_ <=? _) eqn:Hle; [apply Z.leb_le in Hle; lia|].
    exists s. split; [done|]. split; [replace (S MAX_REACTION_LEVEL) with k by lia; done|].
    destruct s; reflexivity.
  - destruct (_ <=? _) eqn:Hle; [|apply Z.leb_gt in Hle; lia].
    destruct Hinit as (ls & Hlen & Hnd & Hvec & Hlive & Hempty).
    run_code. rewrite Nat2Z.id.
    destruct (decide _) as [Hlt|Hge].
    2: { exfalso. apply Hge. rewrite Hvec, length_app, length_fmap, length_replicate. lia. }
    rewrite (to_size_t_small (_ + 1)) by lia.
    replace (Z.of_nat k + 1) with (Z.of_nat (S k)) by lia.
    set (l := fresh (dom (pqueues s))).
    assert (Hl : pqueues s !! l = None).
    { apply not_elem_of_dom. apply is_fresh. }
    set (s2 := {| reactions := reactions s; pqueues := <[l:=[]]> (pqueues s);
                  current_tag := current_tag s; stop_tag := stop_tag s;
                  _lf_sched_semaphore := _lf_sched_semaphore s;
                  _lf_sched_should_stop := _lf_sched_should_stop s;
                  vector_of_reaction_qs := <[k:=Some l]> (vector_of_reaction_qs s);
                  executing_q := executing_q s;
                  _lf_sched_number_of_workers := _lf_sched_number_of_workers s;
                  _lf_sched_number_of_idle_workers := _lf_sched_number_of_idle_workers s;
                  _lf_logical_tag_completed := _lf_logical_tag_completed s;
                  _lf_sched_next_reaction_level := _lf_sched_next_reaction_level s;
                  trace := trace s |}).
    destruct (IH (S k) fuel s2) as (s' & Heq & Hfin & Hframe); [lia|lia|done| |].
    + exists (ls ++ [l]). split; [rewrite length_app; simpl; lia|].
      split.
      { apply NoDup_app. split; [done|]. split; [|apply NoDup_singleton].
        intros x Hx Hx'. apply list_elem_of_singleton in Hx' as ->.
        destruct (Hlive l Hx) as [c Hc]. congruence. }
      split.
      { simpl. rewrite Hvec.
        rewrite insert_app_r_alt by (rewrite length_fmap; lia).
        rewrite length_fmap, Hlen, Nat.sub_diag.
        replace (S MAX_REACTION_LEVEL - k)%nat with (S (MAX_REACTION_LEVEL - k)) by lia.
        simpl. rewrite fmap_app. simpl. rewrite <- app_assoc. reflexivity. }
      split.
      { simpl. intros x Hx. apply elem_of_app in Hx as [Hx|Hx].
        - destruct (decide (l = x)) as [->|Hne].
          + rewrite lookup_insert_eq. eauto.
          + rewrite lookup_insert_ne by done. apply Hlive, Hx.
        - apply list_elem_of_singleton in Hx as ->. rewrite lookup_insert_eq. eauto. }
      { simpl. intros x c Hx. destruct (decide (l = x)) as [->|Hne].
        - rewrite lookup_insert_eq in Hx. congruence.
        - rewrite lookup_insert_ne in Hx by done. apply (Hempty x c Hx). }
    + exists s'. split; [exact Heq|]. split; [exact Hfin|].
      rewrite Hframe at 1. reflexivity.
Qed.

Lemma lf_sched_init_run (n : Z) (rs : gmap loc reaction) (now stop : tag) :
  Z.of_nat MAX_REACTION_LEVEL + 1 < 2 ^ SIZE_WIDTH →
  ∃ s0 q0,
    lf_sched_init n (static_state rs now stop) = Ret tt s0 ∧
    initialised_up_to (S MAX_REACTION_LEVEL) s0 ∧
    vector_of_reaction_qs s0 !! 0%nat = Some (Some q0) ∧
    s0 = record (EvMutexInit exec_q_mutex)
           (set_executing_q (Some q0)
              (set_vector (λ _, vector_of_reaction_qs s0)
                 (set_pqueues (λ _, pqueues s0)
                    (set_number_of_workers n
                       (set_semaphore (Some 0) (static_state rs now stop)))))).
Proof.
  intros Hmax. unfold lf_sched_init.
  unfold bind at 1, lf_semaphore_new, modify at 1.
  unfold bind at 1, modify at 1. unfold bind at 1.
  set (s1 := set_number_of_workers n (set_semaphore (Some 0) (static_state rs now stop))).
  destruct (init_loop_run (S MAX_REACTION_LEVEL) 0 (S (S MAX_REACTION_LEVEL)) s1)
    as (s2 & Heq & Hfin & Hframe); [lia|lia|done| |].
  { exists []. split; [done|]. split; [apply NoDup_nil_2|]. split; [|split].
    - reflexivity.
    - intros l Hl. inversion Hl.
    - simpl. intros l c Hl. rewrite lookup_empty in Hl. discriminate. }
  change (Z.of_nat 0) with 0 in Heq. rewrite Heq.
  assert (Hfin' := Hfin).
  destruct Hfin as (ls & Hlen & Hnd & Hvec & Hlive & Hempty).
  destruct ls as [|q0 ls]; [discriminate|].
  destruct s2 as [r2 q2 ct2 st2 sem2 ss2 v2 e2 nw2 ni2 tc2 nl2 tr2].
  unfold s1 in Hframe. simpl in Hframe, Hvec.
  injection Hframe; intros; subst r2 ct2 st2 sem2 ss2 e2 nw2 ni2 tc2 nl2 tr2.
  run_code. rewrite Hvec. simpl.
  eexists _, q0. split; [reflexivity|]. simpl. split.
  - exists (q0 :: ls). done.
  - split; [done|]. reflexivity.
Qed.

Lemma initialised_well_formed (s : sched) :
  initialised_up_to (S MAX_REACTION_LEVEL) s →
  well_formed s ∧
  ∀ i, 0 ≤ i ≤ Z.of_nat MAX_REACTION_LEVEL → slot_empty s i.
Proof.
  intros (ls & Hlen & Hnd & Hvec & Hlive & Hempty).
  rewrite Nat.sub_diag in Hvec. simpl in Hvec. rewrite app_nil_r in Hvec.
  split; [split; [|split]|].
  - exists ls. done.
  - intros i q content e _ [_ Hq] He. rewrite (Hempty q content Hq) in He.
    inversion He.
  - intros q content Hq. rewrite (Hempty q content Hq). split; [apply NoDup_nil_2|].
    intros idx r Hin. inversion Hin.
  - intros i Hi. destruct (lookup_lt_is_Some_2 ls (Z.to_nat i)) as [q Hq]; [lia|].
    destruct (Hlive q) as [c Hc]; [eapply list_elem_of_lookup_2, Hq|].
    exists q. split.
    + rewrite Hvec, list_lookup_fmap, Hq. done.
    + rewrite Hc. f_equal. apply (Hempty q c Hc).
Qed.

(** *** Stop *)

Lemma signal_stop_run (s : sched) (c : Z) :
  _lf_sched_semaphore s = Some c →
  _lf_sched_signal_stop s =
    Ret tt (record (EvSemRelease (to_size_t (_lf_sched_number_of_workers s - 1)))
              (set_semaphore
                 (Some (c + to_size_t (_lf_sched_number_of_workers s - 1)))
                 (set_should_stop true s))).
Proof.
  intros Hsem. unfold _lf_sched_signal_stop.
  destruct s as [rs qs now stp sem ss v eq nw ni tc nl tr]. simpl in *. subst.
  reflexivity.
Qed.

(** *** Successive pops *)

Lemma pqueue_remove_subset (e x : Z * loc) (q : pqueue) :
  x ∈ pqueue_remove e q → x ∈ q.
Proof.
  induction q as [|a q IH]; simpl; [done|].
  destruct (decide (a = e)); intros Hx.
  - right. exact Hx.
  - apply elem_of_cons in Hx as [->|Hx]; [left|right; auto].
Qed.

Lemma pqueue_remove_length (e : Z * loc) (q : pqueue) :
  e ∈ q → length q = S (length (pqueue_remove e q)).
Proof.
  induction q as [|a q IH]; simpl; intros He; [inversion He|].
  destruct (decide (a = e)); [done|].
  apply elem_of_cons in He as [->|He]; [done|]. simpl. rewrite <- IH; done.
Qed.

Lemma pqueue_peek_some (q : pqueue) : q ≠ [] → is_Some (pqueue_peek q).
Proof.
  destruct q as [|a q]; [done|]. intros _. simpl.
  destruct (pqueue_peek q); [destruct (_ <=? _)|]; eauto.
Qed.

(** *** One worker *)

Lemma trigger_quiet (r : ptr) (w : Z) (s : sched) :
  quiet (lf_sched_trigger_reaction r w s).
Proof.
  destruct r as [r|]; [|done].
  destruct (trigger_cases r w s)
    as [Hu | [(rec & Hr & Hs & Heq) | (rec & q & content & Hr & Hs & Hslot & Heq)]];
    rewrite ?Hu, ?Heq; done.
Qed.

Lemma trigger_all_quiet (rs : list ptr) (s : sched) : quiet (trigger_all rs s).
Proof.
  revert s. induction rs as [|r rs IH]; intros s; simpl; [done|].
  unfold bind. pose proof (trigger_quiet r (-1) s) as Hq.
  destruct (lf_sched_trigger_reaction r (-1) s); first [done | apply IH].
Qed.

Lemma next_locked_quiet (s : sched) : quiet (_lf_next_locked s).
Proof.
  unfold _lf_next_locked. run_code. destruct (next_events _) as [t rs]. simpl.
  apply trigger_all_quiet.
Qed.

Lemma advance_tag_locked_quiet (s : sched) : quiet (_lf_sched_advance_tag_locked s).
Proof.
  destruct (stop_reached s) eqn:Hsr.
  - rewrite advance_tag_locked_stop by done. done.
  - rewrite advance_tag_locked_go by done. unfold bind, ret.
    pose proof (next_locked_quiet
      (set_tag_completed true
         (if _lf_logical_tag_completed s
          then record (EvTagComplete (current_tag s)) s else s))) as Hq.
    destruct (_lf_next_locked _); done.
Qed.

Lemma advance_if_drained_quiet (s : sched) : quiet (advance_if_drained s).
Proof.
  unfold advance_if_drained. unfold bind at 1, get at 1.
  destruct (_ =? _); [|done].
  unfold bind at 1, modify at 1. unfold bind at 1, lf_mutex_lock, emit, modify at 1.
  unfold bind at 1.
  pose proof (advance_tag_locked_quiet
    (record (EvLock global_mutex) (set_next_level 0 s))) as Hq.
  destruct (_lf_sched_advance_tag_locked _) as [stop s1| | | |]; try done.
  destruct stop; [|done].
  unfold bind at 1, _lf_sched_signal_stop. run_code.
  destruct (_lf_sched_semaphore s1); done.
Qed.

Lemma distribute_loop_quiet (fuel : nat) : ∀ s, quiet (distribute_loop fuel s).
Proof.
  induction fuel as [|fuel IH]; intros s; simpl; [done|].
  unfold bind at 1, get at 1. destruct (_ <=? _); [|done].
  unfold bind at 1, vector_read, bind at 1, get at 1.
  destruct (vector_of_reaction_qs s !! _) as [q|]; [|done].
  unfold ret at 1. unfold bind at 1, modify at 1.
  unfold bind at 1, pqueue_size_at, bind at 1, get at 1. unfold bind at 1.
  destruct q as [q|]; [|done]. unfold deref.
  destruct (pqueues (set_executing_q (Some q) s) !! q) as [content|]; [|done].
  unfold ret at 1, ret at 1.
  destruct (pqueue_size content =? 0).
  - unfold bind at 1, modify at 1. apply IH.
  - done.
Qed.

Lemma notify_quiet (s : sched) : quiet (_lf_sched_notify_workers s).
Proof.
  unfold _lf_sched_notify_workers. run_code.
  destruct (executing_q s) as [q|]; [|done]. simpl.
  destruct (pqueues s !! q) as [content|]; [|done]. simpl.
  destruct (1 <? _); simpl; [|done].
  destruct (_lf_sched_semaphore s); done.
Qed.

Lemma try_advance_quiet (fuel : nat) :
  ∀ s, quiet (_lf_sched_try_advance_tag_and_distribute fuel s).
Proof.
  induction fuel as [|fuel IH]; intros s; simpl; [done|].
  unfold bind at 1. pose proof (advance_if_drained_quiet s) as Hq.
  destruct (advance_if_drained s) as [stop s1| | | |]; try done.
  destruct stop; [done|]. unfold bind at 1.
  pose proof (distribute_loop_quiet (S (S MAX_REACTION_LEVEL)) s1) as Hq'.
  unfold _lf_sched_distribute_ready_reactions_locked.
  destruct (distribute_loop _ s1) as [k s2| | | |]; try done.
  destruct (0 <? k); [apply notify_quiet | apply IH].
Qed.

Lemma notify_single (s : sched) :
  _lf_sched_number_of_idle_workers s = 1 → queue_ready s →
  _lf_sched_notify_workers s = Ret tt (set_idle_workers 0 s).
Proof.
  intros Hidle (q & content & Hexec & Hq & Hne).
  unfold _lf_sched_notify_workers.
  destruct s as [rs qs now stp sem ss v eq nw ni tc nl tr]. simpl in *. subst.
  run_code. rewrite Hq. simpl.
  assert (HMIN : MIN 1 (pqueue_size content) = 1).
  { rewrite MIN_spec. unfold pqueue_size. destruct content; [done|simpl; lia]. }
  rewrite HMIN. reflexivity.
Qed.

(** The single worker, elected, comes back with the idle count at zero or
    with the stop signalled. *)
Lemma try_advance_single (fuel : nat) :
  ∀ s s',
    _lf_sched_number_of_workers s = 1 →
    _lf_sched_number_of_idle_workers s = 1 →
    _lf_sched_try_advance_tag_and_distribute fuel s = Ret tt s' →
    _lf_sched_number_of_workers s' = 1 ∧
    (_lf_sched_should_stop s' = true ∨ _lf_sched_number_of_idle_workers s' = 0).
Proof.
  induction fuel as [|fuel IH]; intros s s' Hn Hidle; simpl; [discriminate|].
  unfold bind at 1.
  destruct (advance_if_drained s) as [stop s1| | | |] eqn:Hadv; try discriminate.
  apply advance_if_drained_frame in Hadv as (Hidle1 & Hn1 & Hb). destruct stop.
  - unfold ret. intros [= <-]. split; [congruence|]. left. exact Hb.
  - unfold bind at 1.
    destruct (_lf_sched_distribute_ready_reactions_locked s1) as [k s2| | | |]
      eqn:Hdist; try discriminate.
    apply distribute_loop_frame in Hdist as [Hframe Hready].
    assert (Hn2 : _lf_sched_number_of_workers s2 = 1).
    { rewrite Hframe. simpl. congruence. }
    assert (Hidle2 : _lf_sched_number_of_idle_workers s2 = 1).
    { rewrite Hframe. simpl. congruence. }
    destruct (0 <? k) eqn:Hk.
    + apply Z.ltb_lt in Hk. rewrite notify_single; [|done|apply Hready; lia].
      intros [= <-]. simpl. split; [done|]. right. done.
    + apply IH; done.
Qed.

Lemma get_ready_single (fuel : nat) (w : Z) :
  ∀ s,
    _lf_sched_number_of_workers s = 1 →
    _lf_sched_should_stop s = true ∨ _lf_sched_number_of_idle_workers s = 0 →
    quiet (lf_sched_get_ready_reaction fuel w s).
Proof.
  induction fuel as [|fuel IH]; intros s Hn Hinv; [done|].
  rewrite get_ready_unfold.
  destruct (_lf_sched_should_stop s) eqn:Hstop; [done|].
  destruct Hinv as [Hinv|Hidle]; [discriminate|].
  destruct (executing_q s) as [q|]; [|done].
  destruct (pqueues s !! q) as [content|]; [|done].
  destruct (pqueue_peek content) as [e|]; [done|].
  unfold bind at 1, _lf_sched_wait_for_work.
  unfold bind at 1, lf_atomic_fetch_add, bind at 1, get at 1.
  unfold bind at 1, modify at 1. unfold ret at 1. unfold bind at 1, get at 1.
  simpl. rewrite Hidle, Hn. simpl.
  pose proof (try_advance_quiet fuel
    (set_idle_workers (to_size_t (0 + 1)) (after_pop q None content s))) as Hq.
  destruct (_lf_sched_try_advance_tag_and_distribute fuel _) as [[] s2| | | |]
    eqn:Hadv; try done.
  apply try_advance_single in Hadv as [Hn2 Hinv2]; [| simpl; done | done].
  apply IH; done.
Qed.

(** X1: started from the state the C initialisers leave, [lf_sched_init]
    returns; every slot of the array then points to a live, empty queue of
    its own, [executing_q] is the queue of level 0, the semaphore has no
    permit, no worker is idle and the only event is the mutex
    initialisation. *)
Theorem lf_sched_init_establishes (n : Z) (rs : gmap loc reaction)
    (now stop : tag) :
  Z.of_nat MAX_REACTION_LEVEL + 1 < 2 ^ SIZE_WIDTH →
  ∃ s0,
    lf_sched_init n (static_state rs now stop) = Ret tt s0 ∧
    well_formed s0 ∧
    (∀ i, 0 ≤ i ≤ Z.of_nat MAX_REACTION_LEVEL → slot_empty s0 i) ∧
    vector_of_reaction_qs s0 !! 0%nat = Some (executing_q s0) ∧
    _lf_sched_semaphore s0 = Some 0 ∧
    _lf_sched_number_of_workers s0 = n ∧
    _lf_sched_number_of_idle_workers s0 = 0 ∧
    _lf_sched_should_stop s0 = false ∧
    _lf_sched_next_reaction_level s0 = 0 ∧
    reactions s0 = rs ∧
    trace s0 = [EvMutexInit exec_q_mutex].
Proof.
  intros Hmax.
  destruct (lf_sched_init_run n rs now stop Hmax) as (s0 & q0 & Heq & Hinit & Hv & Hs0).
  exists s0. split; [exact Heq|].
  destruct (initialised_well_formed s0 Hinit) as [Hwf Hempty].
  split; [exact Hwf|]. split; [exact Hempty|].
  rewrite Hv. rewrite Hs0. simpl. done.
Qed.

(** X2: a trigger keeps the shape of the queues: every slot has its own live
    queue, a queue holds reactions of its own level only, no queue holds a
    reaction twice, and every entry is a reaction with status [queued]. *)
Theorem trigger_keeps_queues_well_formed (r : ptr) (w : Z) (s s' : sched) :
  well_formed s →
  lf_sched_trigger_reaction r w s = Ret tt s' →
  well_formed s'.
Proof. intros Hwf Heq. apply (trigger_kept r w s s' Heq), Hwf. Qed.

(** X3: the advancer, [_lf_sched_try_advance_tag_and_distribute], keeps the
    shape of the queues, through any number of tag advances. *)
Theorem try_advance_keeps_queues_well_formed (fuel : nat) (s s' : sched) :
  well_formed s →
  _lf_sched_try_advance_tag_and_distribute fuel s = Ret tt s' →
  well_formed s'.
Proof. intros Hwf Heq. apply (try_advance_kept fuel s s' Heq), Hwf. Qed.

(** X4: a trigger that returns, and an advancer that returns, leave each
    mutex locked as often as they found it: every lock they take is
    released. *)
Theorem returning_calls_release_mutexes (m : mutex_id) (s s' : sched) :
  (∀ r w, lf_sched_trigger_reaction r w s = Ret tt s' →
          lock_depth m (trace s') = lock_depth m (trace s)) ∧
  (∀ fuel, _lf_sched_try_advance_tag_and_distribute fuel s = Ret tt s' →
           lock_depth m (trace s') = lock_depth m (trace s)).
Proof.
  split.
  - intros r w Heq. apply (trigger_kept r w s s' Heq).
  - intros fuel Heq. apply (try_advance_kept fuel s s' Heq).
Qed.

(** X5: the advancer returns only with the stop signalled or with a live,
    non-empty executing queue. *)
Theorem try_advance_returns_with_work_or_stop (fuel : nat) (s s' : sched) :
  _lf_sched_try_advance_tag_and_distribute fuel s = Ret tt s' →
  _lf_sched_should_stop s' = true ∨ queue_ready s'.
Proof.
  intros Heq. apply try_advance_outcome in Heq as [H | [H _]]; [left|right]; done.
Qed.

(** X6: with a live semaphore, [_lf_sched_signal_stop] returns, adds
    [number_of_workers - 1] permits (in [size_t]) and from then on every
    [lf_sched_get_ready_reaction] returns NULL and changes nothing. *)
Theorem stop_signal_ends_every_worker (s : sched) (c : Z) :
  _lf_sched_semaphore s = Some c →
  ∃ s',
    _lf_sched_signal_stop s = Ret tt s' ∧
    _lf_sched_semaphore s' =
      Some (c + to_size_t (_lf_sched_number_of_workers s - 1)) ∧
    ∀ fuel w, lf_sched_get_ready_reaction (S fuel) w s' = Ret None s'.
Proof.
  intros Hsem. eexists. split; [apply signal_stop_run, Hsem|].
  split; [done|]. intros fuel w. rewrite get_ready_unfold. done.
Qed.

(** X7: two calls of [lf_sched_get_ready_reaction] in a row on an executing
    queue of at least two reactions both return at once, and the index of
    the first reaction is at most that of the second. *)
Theorem successive_pops_ordered (f1 f2 : nat) (w1 w2 : Z) (s : sched)
    (q : loc) (content : pqueue) :
  _lf_sched_should_stop s = false →
  executing_q s = Some q →
  pqueues s !! q = Some content →
  (2 ≤ length content)%nat →
  ∃ e1 e2 s1 s2,
    lf_sched_get_ready_reaction (S f1) w1 s = Ret (Some e1.2) s1 ∧
    lf_sched_get_ready_reaction (S f2) w2 s1 = Ret (Some e2.2) s2 ∧
    e1 ∈ content ∧ e2 ∈ pqueue_remove e1 content ∧ e1.1 ≤ e2.1.
Proof.
  intros Hstop Hexec Hq Hlen.
  destruct (pqueue_peek_some content) as [e1 H1]; [intros ->; simpl in Hlen; lia|].
  destruct (pqueue_peek_min _ _ H1) as [Hin1 Hmin1].
  destruct (pqueue_peek_some (pqueue_remove e1 content)) as [e2 H2].
  { intros Hnil. pose proof (pqueue_remove_length e1 content Hin1) as Hl.
    rewrite Hnil in Hl. simpl in Hl. lia. }
  destruct (pqueue_peek_min _ _ H2) as [Hin2 _].
  exists e1, e2. eexists _, _. split; [|split; [|split; [exact Hin1|split; [exact Hin2|]]]].
  - rewrite get_ready_unfold, Hstop, Hexec, Hq, H1. reflexivity.
  - rewrite get_ready_unfold. unfold after_pop at 1 2 3. simpl.
    rewrite Hstop, Hexec. rewrite lookup_insert_eq, H2. reflexivity.
  - apply Hmin1. eapply pqueue_remove_subset, Hin2.
Qed.

(** X8: [lf_sched_free] does not reset [executing_q]: after a call that
    returned, a second call frees a queue that is no longer live. *)
Theorem lf_sched_free_twice_undefined (s s' : sched) :
  lf_sched_free s = Ret tt s' → lf_sched_free s' = Undef.
Proof.
  unfold lf_sched_free. run_code.
  destruct (executing_q s) as [q|] eqn:Hexec; [|discriminate]. simpl.
  destruct (pqueues s !! q) as [content|] eqn:Hq; [|discriminate]. simpl.
  destruct (_lf_sched_semaphore s); simpl; [|discriminate].
  intros [= <-]. simpl. rewrite Hexec. simpl. rewrite lookup_delete_eq. reflexivity.
Qed.

(** X9: there is no bounds check on the level: a trigger of an inactive
    reaction whose level is not an index of the array has no defined
    behaviour. *)
Theorem trigger_beyond_array_undefined (r : loc) (rec : reaction) (w : Z)
    (s : sched) :
  reactions s !! r = Some rec →
  status rec = inactive →
  (length (vector_of_reaction_qs s) ≤ Z.to_nat (level_of (index rec)))%nat →
  lf_sched_trigger_reaction (Some r) w s = Undef.
Proof.
  intros Hr Hs Hlen.
  destruct (trigger_cases r w s)
    as [Hu | [(rec' & Hr' & Hs' & _) | (rec' & q & content & Hr' & _ & [Hv _] & _)]].
  - exact Hu.
  - congruence.
  - rewrite Hr in Hr'. injection Hr' as <-.
    apply lookup_ge_None_2 in Hlen. congruence.
Qed.

(** X10: with one worker, [lf_sched_get_ready_reaction] never waits on the
    semaphore and never exits the process: the worker elects itself. *)
Theorem single_worker_never_waits (fuel : nat) (w : Z) (s : sched) :
  _lf_sched_number_of_workers s = 1 →
  _lf_sched_number_of_idle_workers s = 0 →
  quiet (lf_sched_get_ready_reaction fuel w s).
Proof. intros Hn Hidle. apply get_ready_single; [done|right; done]. Qed.

(** *** All workers together *)


Lemma run_workers_steps (order : list nat) :
  ∀ sys sys', run_workers order sys = Some sys' → rtc step sys sys'.
Proof.
  induction order as [|w order IH]; intros sys sys'; simpl.
  - intros [= <-]. apply rtc_refl.
  - destruct (workers sys !! w) as [p|] eqn:Hw; [|discriminate].
    destruct (worker_step (Z.of_nat w) p (shared sys)) as [p' s'| | | |] eqn:Hrun;
      try discriminate.
    intros Hrest. eapply rtc_l; [|apply IH, Hrest].
    destruct sys as [s ws]. apply (step_worker w p p' s s' ws); done.
Qed.



(** *** Reactions are handed out once *)

Lemma pqueue_remove_sublist (e : Z * loc) (q : pqueue) :
  sublist (pqueue_remove e q) q.
Proof.
  induction q as [|a q IH]; simpl; [done|].
  destruct (decide (a = e)).
  - apply sublist_cons. done.
  - apply sublist_skip. exact IH.
Qed.

Lemma pqueue_remove_fresh (e : Z * loc) (q : pqueue) :
  NoDup q.*2 → e ∈ q → e.2 ∉ (pqueue_remove e q).*2.
Proof.
  induction q as [|a q IH]; simpl; intros Hnd He; [inversion He|].
  apply NoDup_cons in Hnd as [Ha Hnd].
  destruct (decide (a = e)) as [->|Hne]; [exact Ha|].
  apply elem_of_cons in He as [->|He]; [done|].
  simpl. intros Hin. apply elem_of_cons in Hin as [Heq|Hin].
  - apply Ha. rewrite <- Heq. apply list_elem_of_fmap. exists e. done.
  - apply (IH Hnd He Hin).
Qed.

Lemma pop_exclusive (held : loc → Prop) (s : sched) (q : loc)
    (content : pqueue) (e : Z * loc) :
  exclusive held s →
  pqueues s !! q = Some content →
  pqueue_peek content = Some e →
  ¬ held e.2 ∧
  exclusive (λ r, held r ∨ r = e.2)
    (after_pop q (Some e.2) (pqueue_remove e content) s).
Proof.
  intros (Hcons & Huniq & Hheld) Hq Hpeek.
  destruct (pqueue_peek_min _ _ Hpeek) as [Hin _].
  destruct e as [idx r]. simpl.
  assert (Hinq : in_queue s r q).
  { exists content. split; [done|]. apply list_elem_of_fmap. exists (idx, r). done. }
  split; [intros Hh; apply (proj2 (Hheld r Hh) q Hinq)|].
  set (s' := after_pop q (Some r) (pqueue_remove (idx, r) content) s).
  assert (Hsub : ∀ r0 q0, in_queue s' r0 q0 → in_queue s r0 q0).
  { intros r0 q0 (c0 & H0 & Hr0). unfold s', after_pop in H0. simpl in H0.
    destruct (decide (q = q0)) as [<-|Hne].
    - rewrite lookup_insert_eq in H0. injection H0 as <-.
      exists content. split; [done|].
      eapply elem_of_sublist; [exact Hr0|].
      apply fmap_sublist, pqueue_remove_sublist.
    - rewrite lookup_insert_ne in H0 by done. exists c0. done. }
  destruct (Hcons q content Hq) as [Hnd Hent].
  split; [|split].
  - intros q0 c0 H0. unfold s', after_pop in H0. simpl in H0.
    change (reactions s') with (reactions s).
    destruct (decide (q = q0)) as [<-|Hne].
    + rewrite lookup_insert_eq in H0. injection H0 as <-. split.
      * eapply sublist_NoDup; [exact Hnd|].
        apply fmap_sublist, pqueue_remove_sublist.
      * intros idx0 r0 H. apply Hent. eapply pqueue_remove_subset, H.
    + rewrite lookup_insert_ne in H0 by done. apply (Hcons q0 c0 H0).
  - intros r0 q1 q2 H1 H2. apply (Huniq r0 q1 q2); apply Hsub; done.
  - intros r0 [Hr0 | ->].
    + destruct (Hheld r0 Hr0) as [Hst Hnot]. split; [exact Hst|].
      intros q0 H0. apply (Hnot q0), Hsub, H0.
    + split.
      * destruct (Hent idx r Hin) as (rec & Hrec & Hs & _). exists rec. done.
      * intros q0 H0. pose proof (Hsub _ _ H0) as H0'.
        assert (q0 = q) as -> by apply (Huniq r q0 q H0' Hinq).
        destruct H0 as (c0 & Hc0 & Hr0). unfold s', after_pop in Hc0. simpl in Hc0.
        rewrite lookup_insert_eq in Hc0. injection Hc0 as <-.
        apply (pqueue_remove_fresh (idx, r) content Hnd Hin Hr0).
Qed.

Lemma done_exclusive (held : loc → Prop) (s : sched) (r : loc) (rec : reaction) :
  exclusive held s → held r →
  reactions s !! r = Some rec →
  exclusive (λ r0, held r0 ∧ r0 ≠ r) (with_status r rec inactive s).
Proof.
  intros (Hcons & Huniq & Hheld) Hr Hrec.
  destruct (Hheld r Hr) as [_ Hnot].
  split; [|split].
  - intros q c Hq. simpl in Hq. destruct (Hcons q c Hq) as [Hnd Hent].
    split; [exact Hnd|]. intros idx r0 Hin.
    destruct (Hent idx r0 Hin) as (rec0 & Hrec0 & Hs0 & Hi0).
    assert (Hne : r ≠ r0).
    { intros <-. apply (Hnot q). exists c. split; [done|].
      apply list_elem_of_fmap. exists (idx, r). done. }
    exists rec0. unfold with_status. simpl. rewrite lookup_insert_ne by done. done.
  - exact Huniq.
  - intros r0 [Hr0 Hne]. destruct (Hheld r0 Hr0) as [(rec0 & Hrec0 & Hs0) Hnot0].
    split; [|exact Hnot0].
    exists rec0. unfold with_status. simpl. rewrite lookup_insert_ne by done. done.
Qed.

Lemma init_loop_empty (fuel : nat) :
  ∀ (i : Z) (s s' : sched),
    init_loop fuel i s = Ret tt s' →
    reactions s' = reactions s ∧
    ((∀ q c, pqueues s !! q = Some c → c = []) →
     ∀ q c, pqueues s' !! q = Some c → c = []).
Proof.
  induction fuel as [|fuel IH]; intros i s s'; simpl; [discriminate|].
  destruct (_ <=? _); [|unfold ret; intros [= <-]; done].
  run_code. destruct (decide _); [|discriminate]. intros Heq.
  apply IH in Heq as [Hr Hq]. split; [exact Hr|]. intros Hempty. apply Hq.
  simpl. intros q c Hc.
  destruct (decide (fresh (dom (pqueues s)) = q)) as [<-|Hne].
  - rewrite lookup_insert_eq in Hc. congruence.
  - rewrite lookup_insert_ne in Hc by done. apply (Hempty q c Hc).
Qed.

Lemma init_queues_empty (n : Z) (rs : gmap loc reaction) (now stop : tag)
    (s0 : sched) :
  lf_sched_init n (static_state rs now stop) = Ret tt s0 →
  ∀ q c, pqueues s0 !! q = Some c → c = [].
Proof.
  unfold lf_sched_init.
  unfold bind at 1, lf_semaphore_new, modify at 1.
  unfold bind at 1, modify at 1. unfold bind at 1.
  destruct (init_loop _ 0 _) as [[] s1| | | |] eqn:Hloop; try discriminate.
  apply init_loop_empty in Hloop as [_ Hq].
  run_code. destruct (vector_of_reaction_qs s1 !! _); [|discriminate].
  intros [= <-]. simpl. apply Hq. simpl. intros q c Hc.
  rewrite lookup_empty in Hc. discriminate.
Qed.

Lemma initial_exclusive (n : Z) (rs : gmap loc reaction) (now stop : tag)
    (s0 : sched) :
  lf_sched_init n (static_state rs now stop) = Ret tt s0 →
  exclusive (λ _, False) s0.
Proof.
  intros Hinit. pose proof (init_queues_empty _ _ _ _ _ Hinit) as Hempty.
  assert (Hnone : ∀ r q, ¬ in_queue s0 r q).
  { intros r q (c & Hc & Hin). rewrite (Hempty q c Hc) in Hin. inversion Hin. }
  split; [|split].
  - intros q c Hc. rewrite (Hempty q c Hc). split; [apply NoDup_nil_2|].
    intros idx r Hin. inversion Hin.
  - intros r q1 q2 H1 _. destruct (Hnone r q1 H1).
  - intros r [].
Qed.

Lemma done_returns (w : Z) (r : loc) (s s' : sched) :
  lf_sched_done_with_reaction w (Some r) s = Ret tt s' →
  ∃ rec, reactions s !! r = Some rec ∧ s' = with_status r rec inactive s.
Proof.
  unfold lf_sched_done_with_reaction, bind at 1.
  destruct (reactions s !! r) as [rec|] eqn:Hr.
  - destruct (decide (status rec = queued)) as [Hs|Hs].
    + rewrite (cas_hit r rec) by done. unfold ret. intros [= <-].
      exists rec. done.
    + rewrite (cas_miss r rec) by done. run_code. rewrite Hr. discriminate.
  - rewrite cas_dangling by done. discriminate.
Qed.

(** X13: each call, taken on its own, keeps every reaction in one place.
    From a state in which no reaction is in a queue twice or in two queues
    and every held reaction is queued and in no queue: a pop by
    [lf_sched_get_ready_reaction] returns a reaction that was not held, and
    the same holds afterwards with that reaction held as well;
    [lf_sched_done_with_reaction] of a held reaction keeps it with that
    reaction released; a trigger that returns and an advancer that returns
    keep it. *)
Theorem calls_keep_reactions_exclusive (held : loc → Prop) (s : sched) :
  exclusive held s →
  (∀ fuel w q content e,
     _lf_sched_should_stop s = false → executing_q s = Some q →
     pqueues s !! q = Some content → pqueue_peek content = Some e →
     ∃ s', lf_sched_get_ready_reaction (S fuel) w s = Ret (Some e.2) s' ∧
           ¬ held e.2 ∧
           exclusive (λ r, held r ∨ r = e.2) s') ∧
  (∀ w r s', held r →
     lf_sched_done_with_reaction w (Some r) s = Ret tt s' →
     exclusive (λ r0, held r0 ∧ r0 ≠ r) s') ∧
  (∀ r w s', lf_sched_trigger_reaction r w s = Ret tt s' → exclusive held s') ∧
  (∀ fuel s', _lf_sched_try_advance_tag_and_distribute fuel s = Ret tt s' →
              exclusive held s').
Proof.
  intros Hex. split; [|split; [|split]].
  - intros fuel w q content e Hstop Hexec Hq Hpeek.
    eexists. split.
    { rewrite get_ready_unfold, Hstop, Hexec, Hq, Hpeek. reflexivity. }
    apply pop_exclusive; done.
  - intros w r s' Hr Hdone.
    apply done_returns in Hdone as (rec & Hrec & ->).
    apply done_exclusive; done.
  - intros r w s' Heq. apply (trigger_kept r w s s' Heq), Hex.
  - intros fuel s' Heq. apply (try_advance_kept fuel s s' Heq), Hex.
Qed.

(** A run of [run_workers] from the initial state is a run of the system. *)
Lemma run_workers_reachable (n : nat) (rs : gmap loc reaction) (now stop : tag)
    (order : list nat) (s0 : sched) (sys : system) :
  lf_sched_init (Z.of_nat n) (static_state rs now stop) = Ret tt s0 →
  run_workers order (mk_system s0 (replicate n AtLoopHead)) = Some sys →
  reachable n rs now stop sys.
Proof.
  intros Hinit Hrun. exists s0. split; [exact Hinit|].
  apply (run_workers_steps order), Hrun.
Qed.

End Proofs.

(** ** Windows platform support: proofs *)

Section WindowsProofs.

Context `{PF : Platform}.

Lemma llong_in (z : Z) : - 2 ^ 63 ≤ z < 2 ^ 63 → llong z = Some z.
Proof.
  intros H. unfold llong.
  destruct (- 2 ^ 63 <=? z) eqn:H1; [|apply Z.leb_gt in H1; lia].
  destruct (z <? 2 ^ 63) eqn:H2; [done|apply Z.ltb_ge in H2; lia].
Qed.

Lemma ll_div_nonneg (a b : Z) :
  0 ≤ a < 2 ^ 63 → 0 < b → ll_div a b = Some (a / b).
Proof.
  intros Ha Hb. unfold ll_div.
  destruct (b =? 0) eqn:Hz; [apply Z.eqb_eq in Hz; lia|].
  rewrite Z.quot_div_nonneg by lia. apply llong_in.
  pose proof (Z.div_pos a b ltac:(lia) Hb).
  pose proof (Z.div_le_upper_bound a b a Hb ltac:(nia)). lia.
Qed.

Lemma ll_rem_nonneg (a b : Z) :
  0 ≤ a → 0 < b → ll_rem a b = Some (a mod b).
Proof.
  intros Ha Hb. unfold ll_rem.
  destruct (b =? 0) eqn:Hz; [apply Z.eqb_eq in Hz; lia|].
  destruct (a =? - 2 ^ 63) eqn:Hmin; [apply Z.eqb_eq in Hmin; lia|].
  simpl. rewrite Z.rem_mod_nonneg by lia. done.
Qed.

Lemma to_long_small (z : Z) : 0 ≤ z < 2 ^ 31 → to_long z = z.
Proof. apply to_int_small. Qed.

(** X14: for [CLOCK_REALTIME], with [BILLION] one thousand million and a
    system time not before 1970, [lf_clock_gettime] returns 0, leaves
    [errno] alone and stores a time whose seconds and nanoseconds add up to
    exactly the system time less the 134774 days from 1601 to 1970, in
    nanoseconds, with the nanoseconds below one second. *)
Theorem clock_realtime_splits_exactly (clk_id : Z) (os : readings)
    (tp : timespec) (errno : Z) :
  BILLION = 1000000000 →
  clk_id = CLOCK_REALTIME →
  116444736000000000 ≤ system_time os < 2 ^ 63 →
  ∃ tp',
    lf_clock_gettime clk_id os tp errno = Some (0, tp', errno) ∧
    tv_sec tp' * 1000000000 + tv_nsec tp'
      = (system_time os - 116444736000000000) * 100 ∧
    0 ≤ tv_nsec tp' < 1000000000.
Proof.
  intros HB -> Ht. unfold lf_clock_gettime. rewrite Z.eqb_refl, HB.
  change (days_from_1601_to_1970 * 24 * 60 * 60 * 1000 * 1000 * 10)
    with 116444736000000000.
  rewrite (llong_in 116444736000000000) by lia. simpl.
  set (t := system_time os - 116444736000000000).
  rewrite (llong_in t) by (unfold t; lia). simpl.
  change (ll_div 1000000000 100) with (Some 10000000). simpl.
  change (1000000000 ÷ 100) with 10000000.
  rewrite (ll_div_nonneg t 10000000) by (unfold t; lia). simpl.
  rewrite (ll_rem_nonneg t 10000000) by (unfold t; lia). simpl.
  pose proof (Z.mod_pos_bound t 10000000 ltac:(lia)) as Hm.
  rewrite (llong_in (t mod 10000000 * 100)) by lia. simpl.
  eexists. split; [reflexivity|]. simpl.
  rewrite to_long_small by lia.
  pose proof (Z.div_mod t 10000000 ltac:(lia)). lia.
Qed.

(** X15: for [CLOCK_MONOTONIC], when the performance counter answers with
    status 0, a count that is not negative and a frequency of at most
    9223372036 counts per second, [lf_clock_gettime] returns 0 and stores
    the count scaled to nanoseconds and rounded down, split into seconds
    and nanoseconds below one second. *)
Theorem clock_monotonic_scales_counter (clk_id : Z) (os : readings)
    (tp : timespec) (errno : Z) :
  BILLION = 1000000000 →
  clk_id = CLOCK_MONOTONIC → CLOCK_MONOTONIC ≠ CLOCK_REALTIME →
  counter_status os = 0 →
  0 ≤ counts os < 2 ^ 63 →
  0 < counts_per_sec os ≤ 9223372036 →
  ∃ tp',
    lf_clock_gettime clk_id os tp errno = Some (0, tp', errno) ∧
    tv_sec tp' * 1000000000 + tv_nsec tp'
      = counts os * 1000000000 / counts_per_sec os ∧
    0 ≤ tv_nsec tp' < 1000000000.
Proof.
  intros HB -> Hne Hst Hc Hf. unfold lf_clock_gettime.
  destruct (CLOCK_MONOTONIC =? CLOCK_REALTIME) eqn:E; [apply Z.eqb_eq in E; done|].
  rewrite Z.eqb_refl, Hst, HB. simpl.
  set (c := counts os) in *. set (f := counts_per_sec os) in *.
  rewrite (ll_div_nonneg c f) by lia. simpl.
  rewrite (ll_rem_nonneg c f) by lia. simpl.
  pose proof (Z.mod_pos_bound c f ltac:(lia)) as Hm.
  rewrite (llong_in (c mod f * 1000000000)) by nia. simpl.
  rewrite (ll_div_nonneg (c mod f * 1000000000) f) by nia. simpl.
  assert (Hn : 0 ≤ c mod f * 1000000000 / f < 1000000000).
  { split; [apply Z.div_pos; lia|]. apply Z.div_lt_upper_bound; nia. }
  eexists. split; [reflexivity|]. simpl.
  rewrite to_long_small by lia. split; [|exact Hn].
  rewrite (Z.div_mod c f) at 3 by lia.
  replace ((f * (c / f) + c mod f) * 1000000000)
    with (c / f * 1000000000 * f + c mod f * 1000000000) by ring.
  rewrite Z.div_add_l by lia. reflexivity.
Qed.

(** X16: for any other clock, and for [CLOCK_MONOTONIC] when the
    performance counter fails, [lf_clock_gettime] returns -1, sets [errno]
    to [EINVAL] and leaves [*tp] as it was. *)
Theorem clock_failure_leaves_time_untouched (clk_id : Z) (os : readings)
    (tp : timespec) (errno : Z) :
  clk_id ≠ CLOCK_REALTIME →
  clk_id ≠ CLOCK_MONOTONIC ∨ counter_status os ≠ 0 →
  lf_clock_gettime clk_id os tp errno = Some (-1, tp, EINVAL).
Proof.
  intros Hr Hm. unfold lf_clock_gettime.
  destruct (clk_id =? CLOCK_REALTIME) eqn:E1; [apply Z.eqb_eq in E1; done|].
  destruct (clk_id =? CLOCK_MONOTONIC) eqn:E2; [|done].
  destruct (counter_status os =? 0) eqn:E3; [|done].
  apply Z.eqb_eq in E2, E3. destruct Hm; done.
Qed.

(** X17: [lf_nanosleep] hands [NtDelayExecution] the requested time
    rounded down to 100 ns ticks, negated (a relative delay).  When
    [remaining] is NULL, or the status is 0, the result is 0 for status 0
    and -1 otherwise, and [errno] and [*remaining] are untouched; when
    [remaining] is given and the status is negative, the result is -1 and
    [errno] is [EINVAL]. *)
Theorem nanosleep_rounds_down_to_ticks (clk_id : Z) (requested_time : timespec)
    (remaining : option timespec) (delay_status : Z → Z → Z) (os : readings)
    (errno : Z) :
  BILLION = 1000000000 →
  0 ≤ tv_sec requested_time ≤ 922337203684 →
  0 ≤ tv_nsec requested_time < 1000000000 →
  let ticks := (tv_sec requested_time * 1000000000 + tv_nsec requested_time) / 100 in
  let status :=
    delay_status (match remaining with Some _ => 1 | None => 0 end) (- ticks) in
  (remaining = None ∨ status = 0 →
   lf_nanosleep clk_id requested_time remaining delay_status os errno =
     Some (if status =? 0 then 0 else -1, - ticks, remaining, errno)) ∧
  (is_Some remaining → status < 0 →
   lf_nanosleep clk_id requested_time remaining delay_status os errno =
     Some (-1, - ticks, remaining, EINVAL)).
Proof.
  intros HB Hs Hn ticks status.
  assert (Hticks : ticks = tv_sec requested_time * 10000000
                           + tv_nsec requested_time / 100).
  { unfold ticks.
    replace (tv_sec requested_time * 1000000000)
      with (tv_sec requested_time * 10000000 * 100) by ring.
    rewrite Z.div_add_l by lia. reflexivity. }
  assert (Hq : 0 ≤ tv_nsec requested_time / 100 < 10000000).
  { split; [apply Z.div_pos; lia|]. apply Z.div_lt_upper_bound; lia. }
  assert (Hrun : ∀ k : Z → option (Z * Z * option timespec * Z),
    (unit ← ll_div BILLION 100;
     whole ← llong (tv_sec requested_time * unit);
     total ← llong (whole + Z.quot (tv_nsec requested_time) 100);
     duration ← llong (- total);
     k duration) = k (- ticks)).
  { intros k. rewrite HB. change (ll_div 1000000000 100) with (Some 10000000).
    simpl. change (1000000000 ÷ 100) with 10000000. rewrite (llong_in (tv_sec requested_time * 10000000)) by lia. simpl.
    rewrite Z.quot_div_nonneg by lia.
    rewrite (llong_in (_ + _)) by lia. simpl.
    rewrite (llong_in (- _)) by lia. simpl. rewrite Hticks. reflexivity. }
  unfold lf_nanosleep. split.
  - intros Hcase. rewrite Hrun. fold status.
    destruct remaining as [rem|]; [|done].
    destruct Hcase as [|H0]; [done|]. rewrite H0. reflexivity.
  - intros [rem ->] Hneg. rewrite Hrun. fold status. simpl in *.
    destruct (status <? 0) eqn:E; [|apply Z.ltb_ge in E; lia].
    destruct (status =? 0) eqn:E0; [apply Z.eqb_eq in E0; lia|]. reflexivity.
Qed.



End WindowsProofs.

(** ** The statements at work on the small program *)

Lemma lf_sched_trigger_reaction_spec_witness :
  reactions (example_initialised false) !! 10%nat = Some (mk_reaction 0 inactive) ∧
  lf_sched_trigger_reaction (RT := example_runtime false) (Some 10%nat) 0
      (example_initialised false) =
    Ret tt
      (after_insert (RT := example_runtime false) 10 0 0 []
         (with_status 10 (mk_reaction 0 inactive) queued (example_initialised false))).
Proof.
  split; [vm_compute; reflexivity|].
  apply (proj1 (lf_sched_trigger_reaction_spec (RT := example_runtime false)
                  10%nat (mk_reaction 0 inactive) 0 (example_initialised false)
                  ltac:(vm_compute; reflexivity))
               eq_refl 0%nat []).
  split; vm_compute; reflexivity.
Defined.


Lemma lf_sched_done_with_reaction_spec_witness :
  lf_sched_done_with_reaction 1 (Some 13%nat) (example_initialised false) =
    Ret tt (with_status 13 (mk_reaction 2 queued) inactive (example_initialised false)).
Proof.
  apply (proj1 (lf_sched_done_with_reaction_spec 1 13%nat (mk_reaction 2 queued)
                  (example_initialised false) ltac:(vm_compute; reflexivity))).
  reflexivity.
Defined.

Lemma _lf_sched_advance_tag_locked_spec_witness :
  let s := set_tag_completed true (example_initialised false) in
  let s' := state_after (_lf_sched_advance_tag_locked (RT := example_runtime false)) s in
  (false = true ↔ stop_reached (RT := example_runtime false) s = true) ∧
  count_tag_complete (trace s') = (count_tag_complete (trace s) + 1)%nat ∧
  count_next (trace s') = (count_next (trace s) + 1)%nat ∧
  (false = false → _lf_logical_tag_completed s' = true).
Proof.
  intros s s'.
  apply (proj2 (proj2 (_lf_sched_advance_tag_locked_spec
                         (RT := example_runtime false) s)) false s').
  vm_compute. reflexivity.
Defined.

Lemma _lf_sched_distribute_ready_reactions_locked_spec_witness :
  slots_liveb (RT := example_runtime false) example_level_one = true ∧
  ∃ k s',
    _lf_sched_distribute_ready_reactions_locked (RT := example_runtime false)
      example_level_one = Ret k s' ∧
    s' = set_next_level (_lf_sched_next_reaction_level s')
           (set_executing_q (executing_q s') example_level_one) ∧
    0 ≤ k ∧
    (0 < k → scan_found (RT := example_runtime false) example_level_one k s') ∧
    (k = 0 → scan_exhausted (RT := example_runtime false) example_level_one s').
Proof.
  split; [vm_compute; reflexivity|].
  apply (_lf_sched_distribute_ready_reactions_locked_spec
           (RT := example_runtime false) example_level_one).
  - vm_compute. reflexivity.
  - vm_compute. split; discriminate.
  - apply slots_liveb_sound. vm_compute. reflexivity.
Defined.

Lemma _lf_sched_notify_workers_spec_witness :
  0 ≤ MIN 2 (pqueue_size [(65536, 12%nat); (0, 10%nat)]) ≤ 2 ∧
  _lf_sched_notify_workers example_loaded =
    Ret tt (record (EvSemRelease 1)
              (set_semaphore (Some 1) (set_idle_workers 0 example_loaded))).
Proof.
  apply (_lf_sched_notify_workers_spec example_loaded 0%nat
           [(65536, 12%nat); (0, 10%nat)] 0);
    vm_compute; try reflexivity.
  split; [discriminate | reflexivity].
Defined.


(** C2, what the code does: after [lf_sched_init], [lf_sched_free] frees the
    one queue [executing_q] points to and destroys the semaphore; the queues
    of levels 1 and 2 stay allocated and the mutex is not released. *)
Theorem lf_sched_free_leaves_queues :
  let s := example_initialised false in
  let s' := state_after lf_sched_free s in
  lf_sched_free s = Ret tt s' ∧
  vector_of_reaction_qs s = [Some 0%nat; Some 1%nat; Some 2%nat] ∧
  executing_q s = Some 0%nat ∧
  pqueues s' !! 0%nat = None ∧
  pqueues s' !! 1%nat = Some [] ∧
  pqueues s' !! 2%nat = Some [] ∧
  _lf_sched_semaphore s' = None ∧
  trace s' = EvSemDestroy :: EvPqueueFree 0 :: trace s.
Proof. vm_compute. repeat split. Qed.

(** ** The further properties at work on the small program *)

Lemma example_initialised_well_formed (federated : bool) :
  well_formed (RT := example_runtime federated) (example_initialised federated).
Proof.
  destruct (lf_sched_init_run (RT := example_runtime federated) 2
              example_reactions (mk_tag 0 0) (mk_tag 5 0))
    as (s0 & q0 & Heq & Hinit & _); [vm_compute; reflexivity|].
  unfold example_initialised, state_after. rewrite Heq.
  apply (initialised_well_formed (RT := example_runtime federated)), Hinit.
Qed.



Lemma lf_sched_init_establishes_witness :
  Z.of_nat (MAX_REACTION_LEVEL (Runtime := example_runtime false)) + 1
    < 2 ^ SIZE_WIDTH ∧
  ∃ s0,
    lf_sched_init (RT := example_runtime false) 2
      (static_state (RT := example_runtime false) example_reactions
         (mk_tag 0 0) (mk_tag 5 0)) = Ret tt s0 ∧
    well_formed (RT := example_runtime false) s0 ∧
    (∀ i, 0 ≤ i ≤ 2 → slot_empty s0 i) ∧
    vector_of_reaction_qs s0 !! 0%nat = Some (executing_q s0) ∧
    _lf_sched_semaphore s0 = Some 0 ∧
    _lf_sched_number_of_workers s0 = 2 ∧
    _lf_sched_number_of_idle_workers s0 = 0 ∧
    _lf_sched_should_stop s0 = false ∧
    _lf_sched_next_reaction_level s0 = 0 ∧
    reactions s0 = example_reactions ∧
    trace s0 = [EvMutexInit exec_q_mutex].
Proof.
  split; [vm_compute; reflexivity|].
  apply (lf_sched_init_establishes (RT := example_runtime false) 2
           example_reactions (mk_tag 0 0) (mk_tag 5 0)).
  vm_compute. reflexivity.
Defined.

Lemma trigger_keeps_queues_well_formed_witness :
  well_formed (RT := example_runtime false) example_level_one.
Proof.
  apply (trigger_keeps_queues_well_formed (RT := example_runtime false)
           (Some 11%nat) 0 (example_initialised false) example_level_one).
  - apply example_initialised_well_formed.
  - vm_compute. reflexivity.
Defined.

Lemma returning_calls_release_mutexes_witness :
  lock_depth exec_q_mutex
    (trace (state_after
              (lf_sched_trigger_reaction (RT := example_runtime true) (Some 12%nat) 0)
              (example_draining true)))
  = lock_depth exec_q_mutex (trace (example_draining true)).
Proof.
  apply (proj1 (returning_calls_release_mutexes (RT := example_runtime true)
                  exec_q_mutex (example_draining true) _) (Some 12%nat) 0).
  vm_compute. reflexivity.
Defined.

Lemma try_advance_returns_with_work_or_stop_witness :
  let s' := state_after
              (_lf_sched_try_advance_tag_and_distribute
                 (RT := example_runtime false) 3) example_level_one in
  _lf_sched_should_stop s' = true ∨ queue_ready s'.
Proof.
  apply (try_advance_returns_with_work_or_stop (RT := example_runtime false) 3
           example_level_one).
  vm_compute. reflexivity.
Defined.

Lemma stop_signal_ends_every_worker_witness :
  ∃ s',
    _lf_sched_signal_stop (example_initialised false) = Ret tt s' ∧
    _lf_sched_semaphore s' =
      Some (0 + to_size_t
                  (_lf_sched_number_of_workers (example_initialised false) - 1)) ∧
    ∀ fuel w,
      lf_sched_get_ready_reaction (RT := example_runtime false) (S fuel) w s'
        = Ret None s'.
Proof.
  apply (stop_signal_ends_every_worker (RT := example_runtime false)
           (example_initialised false) 0).
  vm_compute. reflexivity.
Defined.

Lemma successive_pops_ordered_witness :
  ∃ e1 e2 s1 s2,
    lf_sched_get_ready_reaction (RT := example_runtime false) 1 0 example_loaded
      = Ret (Some e1.2) s1 ∧
    lf_sched_get_ready_reaction (RT := example_runtime false) 1 1 s1
      = Ret (Some e2.2) s2 ∧
    e1 ∈ [(65536, 12%nat); (0, 10%nat)] ∧
    e2 ∈ pqueue_remove e1 [(65536, 12%nat); (0, 10%nat)] ∧
    e1.1 ≤ e2.1.
Proof.
  apply (successive_pops_ordered (RT := example_runtime false) 0 0 0 1
           example_loaded 0%nat [(65536, 12%nat); (0, 10%nat)]).
  - vm_compute. reflexivity.
  - vm_compute. reflexivity.
  - vm_compute. reflexivity.
  - simpl. lia.
Defined.

Lemma lf_sched_free_twice_undefined_witness :
  lf_sched_free (state_after lf_sched_free (example_initialised false)) = Undef.
Proof.
  apply (lf_sched_free_twice_undefined (example_initialised false)).
  vm_compute. reflexivity.
Defined.

Lemma trigger_beyond_array_undefined_witness :
  lf_sched_trigger_reaction (RT := example_runtime false) (Some 14%nat) 0
    example_far_level = Undef.
Proof.
  apply (trigger_beyond_array_undefined (RT := example_runtime false) 14%nat
           (mk_reaction 7 inactive) 0 example_far_level).
  - vm_compute. reflexivity.
  - reflexivity.
  - vm_compute. lia.
Defined.

Lemma single_worker_never_waits_witness :
  quiet (lf_sched_get_ready_reaction (RT := example_runtime false) 20 0
           example_single).
Proof.
  apply (single_worker_never_waits (RT := example_runtime false) 20 0
           example_single); vm_compute; reflexivity.
Defined.



Lemma clock_realtime_splits_exactly_witness :
  ∃ tp',
    lf_clock_gettime (PF := windows_platform) 0 example_readings
      (mk_timespec 0 0) 0 = Some (0, tp', 0) ∧
    tv_sec tp' * 1000000000 + tv_nsec tp'
      = (system_time example_readings - 116444736000000000) * 100 ∧
    0 ≤ tv_nsec tp' < 1000000000.
Proof.
  apply (clock_realtime_splits_exactly (PF := windows_platform) 0
           example_readings (mk_timespec 0 0) 0).
  - reflexivity.
  - reflexivity.
  - simpl. lia.
Defined.

Lemma clock_monotonic_scales_counter_witness :
  ∃ tp',
    lf_clock_gettime (PF := windows_platform) 1 example_readings
      (mk_timespec 0 0) 0 = Some (0, tp', 0) ∧
    tv_sec tp' * 1000000000 + tv_nsec tp'
      = counts example_readings * 1000000000 / counts_per_sec example_readings ∧
    0 ≤ tv_nsec tp' < 1000000000.
Proof.
  apply (clock_monotonic_scales_counter (PF := windows_platform) 1
           example_readings (mk_timespec 0 0) 0).
  - reflexivity.
  - reflexivity.
  - simpl. lia.
  - reflexivity.
  - simpl. lia.
  - simpl. lia.
Defined.

Lemma clock_failure_leaves_time_untouched_witness :
  lf_clock_gettime (PF := windows_platform) 7 example_readings
    (mk_timespec 3 4) 0 = Some (-1, mk_timespec 3 4, 22).
Proof.
  apply (clock_failure_leaves_time_untouched (PF := windows_platform) 7
           example_readings (mk_timespec 3 4) 0).
  - simpl. lia.
  - left. simpl. lia.
Defined.

Lemma nanosleep_rounds_down_to_ticks_witness :
  lf_nanosleep (PF := windows_platform) 0 (mk_timespec 2 250) None
    (λ _ _, 0) example_readings 0
  = Some (0, - ((2 * 1000000000 + 250) / 100), None, 0).
Proof.
  apply (proj1 (nanosleep_rounds_down_to_ticks (PF := windows_platform) 0
                  (mk_timespec 2 250) None (λ _ _, 0) example_readings 0
                  eq_refl ltac:(simpl; lia) ltac:(simpl; lia))).
  left. reflexivity.
Defined.



Lemma busy_initialised_well_formed :
  well_formed (RT := busy_runtime) (busy_initialised 2).
Proof.
  destruct (lf_sched_init_run (RT := busy_runtime) 2
              example_reactions (mk_tag 0 0) (mk_tag 5 0))
    as (s0 & q0 & Heq & Hinit & _); [vm_compute; reflexivity|].
  unfold busy_initialised, state_after. rewrite Heq.
  apply (initialised_well_formed (RT := busy_runtime)), Hinit.
Qed.

Lemma busy_second_round_reachable :
  reachable (RT := busy_runtime) 2 example_reactions (mk_tag 0 0)
    (mk_tag 5 0) busy_second_round.
Proof.
  apply (run_workers_reachable (RT := busy_runtime) 2 example_reactions
           (mk_tag 0 0) (mk_tag 5 0) busy_order (busy_initialised 2));
    vm_compute; reflexivity.
Qed.

Lemma example_loaded_exclusive :
  exclusive (RT := example_runtime false) (λ _, False) example_loaded.
Proof.
  assert (H0 : exclusive (RT := example_runtime false) (λ _, False)
                 (example_initialised false)).
  { apply (initial_exclusive (RT := example_runtime false) 2 example_reactions
             (mk_tag 0 0) (mk_tag 5 0)).
    vm_compute. reflexivity. }
  set (s1 := state_after
               (lf_sched_trigger_reaction (RT := example_runtime false) (Some 12%nat) 0)
               (example_initialised false)).
  set (s2 := state_after
               (lf_sched_trigger_reaction (RT := example_runtime false) (Some 10%nat) 0)
               s1).
  set (s3 := state_after
               (lf_sched_trigger_reaction (RT := example_runtime false) (Some 11%nat) 0)
               s2).
  assert (H1 : exclusive (RT := example_runtime false) (λ _, False) s1).
  { apply (trigger_kept (RT := example_runtime false) (Some 12%nat) 0
             (example_initialised false) s1 ltac:(vm_compute; reflexivity)), H0. }
  assert (H2 : exclusive (RT := example_runtime false) (λ _, False) s2).
  { apply (trigger_kept (RT := example_runtime false) (Some 10%nat) 0
             s1 s2 ltac:(vm_compute; reflexivity)), H1. }
  assert (H3 : exclusive (RT := example_runtime false) (λ _, False) s3).
  { apply (trigger_kept (RT := example_runtime false) (Some 11%nat) 0
             s2 s3 ltac:(vm_compute; reflexivity)), H2. }
  apply (same_store_exclusive (RT := example_runtime false) _ s3); [|exact H3].
  vm_compute. repeat split.
Qed.

Lemma example_handed_out_exclusive :
  exclusive (RT := example_runtime false) (λ r, False ∨ r = 10%nat)
    example_handed_out.
Proof.
  pose proof (pop_exclusive (RT := example_runtime false) (λ _, False)
                example_loaded 0%nat [(65536, 12%nat); (0, 10%nat)] (0, 10%nat)
                example_loaded_exclusive ltac:(vm_compute; reflexivity)
                ltac:(vm_compute; reflexivity)) as [_ H].
  exact H.
Qed.

Lemma trigger_after_done_enqueues_again_witness :
  ∃ s1 s2 s3 s4 s5,
    lf_sched_trigger_reaction (RT := example_runtime false) (Some 10%nat) 0
      (example_initialised false) = Ret tt s1 ∧
    lf_sched_get_ready_reaction (RT := example_runtime false) 1 0 s1
      = Ret (Some 10%nat) s2 ∧
    lf_sched_done_with_reaction 0 (Some 10%nat) s2 = Ret tt s3 ∧
    pqueues s3 !! 0%nat = Some [] ∧
    lf_sched_trigger_reaction (RT := example_runtime false) (Some 10%nat) (-1) s3
      = Ret tt s4 ∧
    pqueues s4 !! 0%nat = Some [(index (mk_reaction 0 inactive), 10%nat)] ∧
    lf_sched_get_ready_reaction (RT := example_runtime false) 1 0 s4
      = Ret (Some 10%nat) s5 ∧
    current_tag s5 = current_tag (example_initialised false) ∧
    count_next (trace s5) = count_next (trace (example_initialised false)).
Proof.
  apply (trigger_after_done_enqueues_again (RT := example_runtime false)
           10%nat (mk_reaction 0 inactive) 0 (-1) 0 (example_initialised false)
           0%nat).
  - vm_compute. reflexivity.
  - reflexivity.
  - split; vm_compute; reflexivity.
  - vm_compute. reflexivity.
  - vm_compute. reflexivity.
Defined.

Lemma lf_sched_get_ready_reaction_spec_witness :
  count_next
    (trace (state_after (lf_sched_get_ready_reaction (RT := busy_runtime) 6 0)
              (busy_initialised 1))) = 1%nat ∧
  ∃ s1, loop_head (RT := busy_runtime) 6 0 (busy_initialised 1) s1 ∧
        popped_min s1 10
          (state_after (lf_sched_get_ready_reaction (RT := busy_runtime) 6 0)
             (busy_initialised 1)).
Proof.
  split; [vm_compute; reflexivity|].
  apply (proj1 (proj2 (proj2 (lf_sched_get_ready_reaction_spec
                                (RT := busy_runtime) 6 0 (busy_initialised 1))))
               (Some 10%nat)).
  vm_compute. reflexivity.
Defined.

Lemma idle_workers_bounded_witness :
  Z.of_nat 2 < 2 ^ SIZE_WIDTH ∧
  workers busy_second_round = [AtAcquire; AtNotify] ∧
  _lf_sched_number_of_idle_workers (shared busy_second_round) = 2 ∧
  0 ≤ _lf_sched_number_of_idle_workers (shared busy_second_round)
    ≤ _lf_sched_number_of_workers (shared busy_second_round) ∧
  ∀ s', 0 ≤ _lf_sched_number_of_idle_workers (shared busy_second_round) →
        _lf_sched_notify_workers (shared busy_second_round) = Ret tt s' →
        0 ≤ _lf_sched_number_of_idle_workers s'
          ≤ _lf_sched_number_of_idle_workers (shared busy_second_round).
Proof.
  split; [vm_compute; reflexivity|]. split; [vm_compute; reflexivity|].
  split; [vm_compute; reflexivity|].
  exact (idle_workers_bounded (RT := busy_runtime) 2 example_reactions
           (mk_tag 0 0) (mk_tag 5 0) busy_second_round
           ltac:(vm_compute; reflexivity) busy_second_round_reachable).
Defined.

Lemma try_advance_keeps_queues_well_formed_witness :
  count_next
    (trace (state_after
              (_lf_sched_try_advance_tag_and_distribute (RT := busy_runtime) 3)
              (busy_initialised 2))) = 1%nat ∧
  well_formed (RT := busy_runtime)
    (state_after
       (_lf_sched_try_advance_tag_and_distribute (RT := busy_runtime) 3)
       (busy_initialised 2)).
Proof.
  split; [vm_compute; reflexivity|].
  apply (try_advance_keeps_queues_well_formed (RT := busy_runtime) 3
           (busy_initialised 2)).
  - apply busy_initialised_well_formed.
  - vm_compute. reflexivity.
Defined.

Lemma calls_keep_reactions_exclusive_witness :
  ∃ s', lf_sched_get_ready_reaction (RT := example_runtime false) 1 1
          example_handed_out = Ret (Some 12%nat) s' ∧
        ¬ (False ∨ 12%nat = 10%nat) ∧
        exclusive (RT := example_runtime false)
          (λ r, (False ∨ r = 10%nat) ∨ r = 12%nat) s'.
Proof.
  apply (proj1 (calls_keep_reactions_exclusive (RT := example_runtime false)
                  (λ r, False ∨ r = 10%nat) example_handed_out
                  example_handed_out_exclusive)
               0%nat 1 0%nat [(65536, 12%nat)] (65536, 12%nat));
    vm_compute; reflexivity.
Defined.
